(** * gypsum-actions: the version indexer ([src/index-project.js])

    A shallow embedding of the indexing script and the properties of its
    orchestration: lock check, version metadata and expiry job, aggregation
    of the JSON objects of a version, permissions, latest pointers, commit,
    unlock and ticket closing, and the exit-code convention of the process.

    The script talks to two remote collaborators (the R2 bucket through
    the S3 client, the issue tracker through [fetch]).  They are an
    interface here: a class of operations over an abstract world, each of
    which returns its answer together with the next world, so that every
    behaviour of the collaborators (including failures and changes made by
    others between two calls) is covered.  The script itself is a
    computation in a state-and-exception monad that records every call it
    makes, with its answer, in a trace. *)

From Stdlib Require Import ZArith Lia List Bool.
From Stdlib Require Import Strings.String Strings.Ascii.
From stdpp Require Import base strings gmap pretty.
Import ListNotations.

Local Open Scope string_scope.
Local Open Scope Z_scope.
Local Set Warnings "-register-all".

(** ** JavaScript values

    The JSON documents the script reads and writes, as JavaScript values.
    Numbers are integers (the script's numbers are millisecond clocks and
    durations); [VNaN] is the result of arithmetic on [undefined]. *)

Inductive Value : Type :=
| VUndefined
| VNull
| VBool (b : bool)
| VNum (n : Z)
| VNaN
| VStr (s : string)
| VArr (items : list Value)
| VObj (fields : list (string * Value)).

(** A thrown value: an [Error] with its [message]; errors of the S3 client
    also carry the HTTP [statusCode]. *)
Record Exn : Type := mkExn { message : string; statusCode : option Z }.

Definition Error (msg : string) : Exn := mkExn msg None.
Definition TypeError (msg : string) : Exn := mkExn msg None.
Definition RangeError (msg : string) : Exn := mkExn msg None.

(** [e.statusCode == c]. *)
Definition status_is (e : Exn) (c : Z) : bool :=
  match statusCode e with
  | Some c' => c' =? c
  | None => false
  end.

(** The outcome of a call, and of a settled promise: a value or a throw. *)
Inductive Res (A : Type) : Type :=
| Ok (a : A)
| Throw (e : Exn).
Arguments Ok {A} a.
Arguments Throw {A} e.

Fixpoint assoc (name : string) (fields : list (string * Value)) : Value :=
  match fields with
  | [] => VUndefined
  | (k, v) :: rest => if String.eqb k name then v else assoc name rest
  end.

(** [x.name], for the property names the script reads ([index_time],
    [expires_in], [number]): a [TypeError] on [null] and [undefined],
    [undefined] on primitives and arrays, the field of an object. *)
Definition prop (x : Value) (name : string) : Res Value :=
  match x with
  | VUndefined | VNull =>
      Throw (TypeError ("Cannot read properties of null (reading '" ++ name ++ "')"))
  | VObj fields => Ok (assoc name fields)
  | _ => Ok VUndefined
  end.

(** [!x] is [negb (truthy x)]. *)
Definition truthy (x : Value) : bool :=
  match x with
  | VUndefined | VNull | VNaN => false
  | VBool b => b
  | VNum n => negb (n =? 0)
  | VStr s => negb (String.eqb s "")
  | VArr _ | VObj _ => true
  end.

(** [x == null] (loose) and [x !== null] (strict). *)
Definition loose_null (x : Value) : bool :=
  match x with VUndefined | VNull => true | _ => false end.

Definition strict_not_null (x : Value) : bool :=
  match x with VNull => false | _ => true end.

(** [s.endsWith(suffix)]. *)
Definition endsWith (s suffix : string) : bool :=
  let n := String.length s in
  let m := String.length suffix in
  (m <=? n)%nat && String.eqb (substring (n - m) m s) suffix.

(** [!process.env.X]: unset or empty. *)
Definition unset (x : option string) : bool :=
  match x with
  | None => true
  | Some s => String.eqb s ""
  end.

(** ** The run-time library

    Built-ins of the JavaScript run time whose result the properties below
    do not depend on: [JSON.stringify], string coercion, and
    [(new Date(x)).toISOString()], which throws a [RangeError] on an
    invalid date ([None]). *)
Class Runtime : Type := {
  JSON_stringify : Value -> string;
  String_of : Value -> string;
  Date_toISOString : Value -> option string
}.

(** [n + x] for a number [n]: numeric addition when [x] is a number,
    [null] or a boolean, [NaN] on [undefined], string concatenation
    otherwise. *)
Definition js_add `{Runtime} (n : Z) (x : Value) : Value :=
  match x with
  | VUndefined | VNaN => VNaN
  | VNull => VNum n
  | VBool b => VNum (n + (if b then 1 else 0))
  | VNum m => VNum (n + m)
  | VStr s => VStr (String_of (VNum n) ++ s)
  | VArr _ | VObj _ => VStr (String_of (VNum n) ++ String_of x)
  end.

(** ** Data of the script *)

(** The job parameters, [JSON.parse] of the parameter file.  [project] and
    [version] are the string identifiers of spec section 3. *)
Record Body : Type := mkBody {
  project : string;
  version : string;
  timestamp : Value;
  overwrite_permissions : Value;
  permissions : Value
}.

(** One page of [listObjectsV2]: the keys of [Contents], [IsTruncated] and
    [NextContinuationToken] ([None] is [undefined]). *)
Record Listing : Type := mkListing {
  Contents : list string;
  IsTruncated : bool;
  NextContinuationToken : option string
}.

(** What [s3.getObject] finds at a key. *)
Inductive Fetched : Type :=
| Found (content : Value)
| Missing
| Failed (e : Exn).

Record Request : Type := mkRequest {
  url : string;
  method : string;
  req_body : string;
  headers : list (string * string)
}.

(** A response of [fetch]: the HTTP status and what [res.json()] gives. *)
Record Response : Type := mkResponse {
  status : Z;
  json : Res Value
}.

(** [res.ok]: the status is in the range 200-299. *)
Definition ok (res : Response) : bool :=
  (200 <=? status res) && (status res <=? 299).

(** Every call to the outside, with its answer. *)
Inductive Event : Type :=
| EvReadFile (path : string) (r : Res Body)
| EvHeadObject (bucket key : string) (r : Res unit)
| EvGetObject (bucket key : string) (r : Fetched)
| EvListObjectsV2 (bucket prefix : string) (token : option string) (r : Res Listing)
| EvPutObject (bucket key : string) (v : Value) (r : Res unit)
| EvDeleteObject (bucket key : string) (r : Res unit)
| EvFetch (req : Request) (r : Res Response)
| EvCloseIssue (repo issue token : string) (r : Res unit)
| EvDateNow (t : Z)
| EvConsoleError (e : Exn).

(** ** The collaborators

    [fs_readParams] is [JSON.parse(fs.readFileSync(path).toString())];
    [s3_putObject] answers with the outcome the promise of the write
    settles with; [gh_closeIssue] is the tracker call behind
    [utils.closeIssue]. *)
Class Env (W : Type) : Type := {
  fs_readParams : string -> W -> Res Body * W;
  s3_headObject : string -> string -> W -> Res unit * W;
  s3_getObject : string -> string -> W -> Fetched * W;
  s3_listObjectsV2 : string -> string -> option string -> W -> Res Listing * W;
  s3_putObject : string -> string -> Value -> W -> Res unit * W;
  s3_deleteObject : string -> string -> W -> Res unit * W;
  http_fetch : Request -> W -> Res Response * W;
  gh_closeIssue : string -> string -> string -> W -> Res unit * W;
  Date_now : W -> Z * W
}.

(** ** Process state and the monad of the script *)

Section Monad.
Context {W : Type}.

(** [writes] is the array of the promises of the writes issued so far,
    each with the outcome it settles with. *)
Record St : Type := mkSt {
  world : W;
  trace : list Event;
  writes : list (Res unit);
  exitCode : Z
}.

(** [None]: the computation does not return (the listing loop is out of
    fuel). *)
Definition M (A : Type) : Type := St -> option (Res A * St).

Definition ret {A} (a : A) : M A := fun s => Some (Ok a, s).
Definition throw {A} (e : Exn) : M A := fun s => Some (Throw e, s).
Definition diverge {A} : M A := fun _ => None.

Definition bind {A B} (m : M A) (k : A -> M B) : M B :=
  fun s =>
    match m s with
    | Some (Ok a, s1) => k a s1
    | Some (Throw e, s1) => Some (Throw e, s1)
    | None => None
    end.

(** [try { m } catch (e) { h e }]. *)
Definition try_catch {A} (m : M A) (h : Exn -> M A) : M A :=
  fun s =>
    match m s with
    | Some (Ok a, s1) => Some (Ok a, s1)
    | Some (Throw e, s1) => h e s1
    | None => None
    end.

(** [await p] on a settled promise. *)
Definition await {A} (p : Res A) : M A :=
  match p with
  | Ok a => ret a
  | Throw e => throw e
  end.

(** Calling an [async] function without awaiting it: its effects happen,
    its outcome is kept in the promise, and a rejection is seen where the
    promise is awaited.  This follows a run in which every rejection
    finds its handler.  Node ends the process, with exit code 1, when a
    promise is rejected with no handler attached and the script goes on
    to wait for another call.  The traces in which this cannot happen
    are those of [handled_in_time] below: on them this view and Node
    agree. *)
Definition async {A} (m : M A) : M (Res A) :=
  fun s =>
    match m s with
    | Some (r, s1) => Some (Ok r, s1)
    | None => None
    end.

(** A call to a collaborator: the world moves on and the call is
    recorded with its answer. *)
Definition call {A} (op : W -> A * W) (ev : A -> Event) : M A :=
  fun s =>
    let '(a, w) := op (world s) in
    Some (Ok a, mkSt w (trace s ++ [ev a]) (writes s) (exitCode s)).

Definition log (ev : Event) : M unit :=
  fun s => Some (Ok tt, mkSt (world s) (trace s ++ [ev]) (writes s) (exitCode s)).

Definition set_exitCode (c : Z) : M unit :=
  fun s => Some (Ok tt, mkSt (world s) (trace s) (writes s) c).

Definition set_writes (ws : list (Res unit)) : M unit :=
  fun s => Some (Ok tt, mkSt (world s) (trace s) ws (exitCode s)).

Definition push_write (p : Res unit) : M unit :=
  fun s => Some (Ok tt, mkSt (world s) (trace s) (writes s ++ [p]) (exitCode s)).

Definition get_writes : M (list (Res unit)) :=
  fun s => Some (Ok (writes s), s).
End Monad.

Arguments St W : clear implicits.
Arguments M W A : clear implicits.

Notation "x <- m ;; k" := (bind m (fun x => k))
  (at level 100, m at next level, right associativity).
Notation "m ;;; k" := (bind m (fun _ => k))
  (at level 100, right associativity).

(** [Promise.all ps]: the values in order, or the throw of a rejected
    promise.  JavaScript rejects with the promise that is rejected first
    in time; a promise here carries its outcome and no time, and the
    first rejected promise of the array is taken.  The two agree when at
    most one promise of the array is rejected. *)
Fixpoint Promise_all {A} (ps : list (Res A)) : Res (list A) :=
  match ps with
  | [] => Ok []
  | Ok a :: rest =>
      match Promise_all rest with
      | Ok l => Ok (a :: l)
      | Throw e => Throw e
      end
  | Throw e :: _ => Throw e
  end.

(** ** [internal.js]: the layout of the bucket

    The path functions are not part of the sources at hand; the script is
    modelled over any layout. *)
Module internal.
Class Paths : Type := {
  lock : string -> string -> string;
  expiry : string -> string -> string;
  versionMetadata : string -> string -> string;
  aggregated : string -> string -> string;
  permissions : string -> string;
  latestPersistent : string -> string;
  latestAll : string -> string
}.
End internal.

(** ** [utils.js] *)
Module utils.
Section Utils.
Context {W : Type} {Henv : Env W}.

(** Modelled from the spec: [utils.getJson] is not part of the sources
    at hand.  It gets the object at [key] and parses it; an object
    that does not exist gives [null] (spec 4.1, steps 3 and 6: "if
    present", "no pointer object currently exists"), any other failure
    of the storage is thrown (spec 7, [RemoteCallFailed]). *)
Definition getJson (bucket key : string) : M W Value :=
  r <- call (s3_getObject bucket key) (EvGetObject bucket key) ;;
  match r with
  | Found content => ret content
  | Missing => ret VNull
  | Failed e => throw e
  end.

(** Modelled from the spec: [utils.putJson] is not part of the sources
    at hand.  It issues the write of [value] at [key] (spec 4.1, step
    7: the writes are issued concurrently and awaited together); the
    outcome is that of the promise. *)
Definition putJson (bucket key : string) (value : Value) : M W unit :=
  r <- call (s3_putObject bucket key value) (EvPutObject bucket key value) ;;
  await r.

(** Modelled from the spec: [utils.closeIssue] is not part of the
    sources at hand.  It closes the ticket through the tracker (spec
    6), and a failure of the call is thrown (spec 7). *)
Definition closeIssue (repo issue token : string) : M W unit :=
  r <- call (gh_closeIssue repo issue token) (EvCloseIssue repo issue token) ;;
  await r.
End Utils.

(** Modelled from the spec: [utils.formatLatest] is not part of the
    sources at hand.  A latest pointer records the version and its
    [index_time] (spec 8: [{version:"v1", index_time:<run time>}]). *)
Definition formatLatest (v : string) (i : Z) : Value :=
  VObj [("version", VStr v); ("index_time", VNum i)].
End utils.

(** ** [index-project.js] *)
Section Script.
Context {W : Type} {Henv : Env W} {Hrt : Runtime} {Hpaths : internal.Paths}.

(** [(new Date(x)).toISOString()]. *)
Definition toISOString (x : Value) : M W string :=
  match Date_toISOString x with
  | Some iso => ret iso
  | None => throw (RangeError "Invalid time value")
  end.

Definition headObject (bucket key : string) : M W unit :=
  r <- call (s3_headObject bucket key) (EvHeadObject bucket key) ;;
  await r.

Definition deleteObject (bucket key : string) : M W unit :=
  r <- call (s3_deleteObject bucket key) (EvDeleteObject bucket key) ;;
  await r.

Definition fetch (req : Request) : M W Response :=
  r <- call (http_fetch req) (EvFetch req) ;;
  await r.

(** [writes.push(utils.putJson(...))]: the write is issued and its
    promise is added to [writes]. *)
Definition push_putJson (bucket key : string) (value : Value) : M W unit :=
  p <- async (utils.putJson bucket key value) ;;
  push_write p.

Definition auth_headers (token : string) : list (string * string) :=
  [("Content-Type", "application/json"); ("Authorization", "Bearer " ++ token)].

(** Lines 63-72: making sure the lock exists. *)
Definition lock_check (bucket lockpath : string) : M W unit :=
  try_catch (headObject bucket lockpath)
    (fun _ => throw (Error "failed to acquire the lock file for this project version")).

(** The request of lines 89-104. *)
Definition expiry_request (repo token : string) (body : Body) (expired : Value) : Request :=
  mkRequest ("https://api.github.com/repos/" ++ repo ++ "/issues") "POST"
    (JSON_stringify (VObj [
       ("title", VStr "purge project");
       ("body", VStr (JSON_stringify (VObj [
          ("project", VStr (project body));
          ("version", VStr (version body));
          ("mode", VStr "expiry");
          ("delete_after", expired)])))]))
    (auth_headers token).

(** Lines 74-113: the version metadata, with the expiry job when there
    is an expiry file.  Returns [has_expiry]. *)
Definition version_metadata (bucket repo token : string) (body : Body) (index_time : Z)
  : M W bool :=
  upload_time <- toISOString (timestamp body) ;;
  index_iso <- toISOString (VNum index_time) ;;
  let version_meta := [("upload_time", VStr upload_time); ("index_time", VStr index_iso)] in
  exp_info <- utils.getJson bucket (internal.expiry (project body) (version body)) ;;
  let has_expiry := strict_not_null exp_info in
  version_meta <-
    (if has_expiry then
       expires_in <- await (prop exp_info "expires_in") ;;
       let expired := js_add index_time expires_in in
       expiry_time <- toISOString expired ;;
       res <- fetch (expiry_request repo token body expired) ;;
       if negb (ok res) then throw (Error "failed to post an expiry job")
       else
         payload <- await (json res) ;;
         number <- await (prop payload "number") ;;
         ret (version_meta
                ++ [("expiry_time", VStr expiry_time); ("expiry_job_id", number)])%list
     else ret version_meta) ;;
  push_putJson bucket (internal.versionMetadata (project body) (version body))
    (VObj version_meta) ;;;
  ret has_expiry.

(** Lines 124-128: the promises of the JSON files of one page. *)
Fixpoint collect_page (bucket : string) (contents : list string) (agg : list (Res Value))
  : M W (list (Res Value)) :=
  match contents with
  | [] => ret agg
  | key :: rest =>
      if endsWith key ".json" then
        p <- async (utils.getJson bucket key) ;;
        collect_page bucket rest (agg ++ [p])
      else collect_page bucket rest agg
  end.

(** Lines 120-135: [while (1)], one page per round. *)
Fixpoint listing_loop (fuel : nat) (bucket prefix : string) (token : option string)
    (agg : list (Res Value)) : M W (list (Res Value)) :=
  match fuel with
  | O => diverge
  | S fuel' =>
      r <- call (s3_listObjectsV2 bucket prefix token)
             (EvListObjectsV2 bucket prefix token) ;;
      info <- await r ;;
      agg' <- collect_page bucket (Contents info) agg ;;
      if IsTruncated info
      then listing_loop fuel' bucket prefix (NextContinuationToken info) agg'
      else ret agg'
  end.

(** Lines 115-139: all JSON files of the version in one clump. *)
Definition aggregation (fuel : nat) (bucket : string) (body : Body) : M W unit :=
  let prefix := project body ++ "/" ++ version body ++ "/" in
  agg <- listing_loop fuel bucket prefix None [] ;;
  resolved <- await (Promise_all agg) ;;
  push_putJson bucket (internal.aggregated (project body) (version body)) (VArr resolved).

(** Lines 141-162: the permissions of the project. *)
Definition save_permissions (bucket : string) (body : Body) : M W unit :=
  let permpath := internal.permissions (project body) in
  overwrite <-
    (if negb (truthy (overwrite_permissions body)) then
       try_catch (headObject bucket permpath ;;; ret false)
         (fun e => if status_is e 404 then ret true else throw e)
     else ret true) ;;
  if (overwrite : bool) then push_putJson bucket permpath (permissions body)
  else ret tt.

(** Lines 166-184. *)
Definition fill_latest (bucket l v : string) (i : Z) : M W unit :=
  lat_info <- utils.getJson bucket l ;;
  relatest <-
    (if loose_null lat_info then ret true
     else
       stored <- await (prop lat_info "index_time") ;;
       match stored with
       | VNum t => ret (t <? i)
       | VNaN => ret false
       | _ => throw (Error "latest file should contain a 'index_time' number")
       end) ;;
  if (relatest : bool) then push_putJson bucket l (utils.formatLatest v i)
  else ret tt.

(** Lines 189-194: the candidate for the persistent pointer. *)
Definition fill_persistent (bucket : string) (body : Body) (has_expiry : bool)
    (index_time : Z) : M W unit :=
  let latestpath := internal.latestPersistent (project body) in
  if has_expiry then fill_latest bucket latestpath "" (-1)
  else fill_latest bucket latestpath (version body) index_time.

(** Lines 164-198. *)
Definition update_latest (bucket : string) (body : Body) (has_expiry : bool)
    (index_time : Z) : M W unit :=
  fill_persistent bucket body has_expiry index_time ;;;
  fill_latest bucket (internal.latestAll (project body)) (version body) index_time.

(** Line 200: [await Promise.all(writes)]. *)
Definition await_writes : M W unit :=
  ws <- get_writes ;;
  _ <- await (Promise_all ws) ;;
  ret tt.

(** Lines 63-198: from the lock check to the latest pointers. *)
Definition prepare (fuel : nat) (bucket repo token : string) (body : Body)
    (lockpath : string) : M W unit :=
  lock_check bucket lockpath ;;;
  index_time <- call Date_now EvDateNow ;;
  has_expiry <- version_metadata bucket repo token body index_time ;;
  aggregation fuel bucket body ;;;
  save_permissions bucket body ;;;
  update_latest bucket body has_expiry index_time.

(** Lines 200-209: the writes are awaited, the lock is deleted, the
    ticket is closed. *)
Definition commit (bucket repo issue token lockpath : string) : M W unit :=
  await_writes ;;;
  deleteObject bucket lockpath ;;;
  utils.closeIssue repo issue token.

(** Lines 57-209: the body of the [try]. *)
Definition core (fuel : nat) (bucket repo issue token param_path : string) : M W unit :=
  r <- call (fs_readParams param_path) (EvReadFile param_path) ;;
  body <- await r ;;
  set_writes [] ;;;
  let lockpath := internal.lock (project body) (version body) in
  prepare fuel bucket repo token body lockpath ;;;
  commit bucket repo issue token lockpath.

(** The request of lines 214-221. *)
Definition comment_request (repo issue token : string) (e : Exn) : Request :=
  mkRequest ("https://api.github.com/repos/" ++ repo ++ "/issues/" ++ issue ++ "/comments")
    "POST" (JSON_stringify (VObj [("body", VStr (message e))])) (auth_headers token).

(** Lines 211-222: the [catch]. *)
Definition report (repo issue token : string) (e : Exn) : M W unit :=
  log (EvConsoleError e) ;;;
  _ <- fetch (comment_request repo issue token e) ;;
  ret tt.

(** [process.env], as far as the script reads it. *)
Record ProcessEnv : Type := mkProcessEnv {
  R2_ACCOUNT_ID : option string;
  R2_ACCESS_KEY_ID : option string;
  R2_SECRET_ACCESS_KEY : option string;
  GH_BOT_TOKEN : option string
}.

(** Lines 30-54: the checks before the [try]; [argv] is [process.argv].
    Gives the token and the four arguments. *)
Definition setup (penv : ProcessEnv) (argv : list string)
  : Res (string * (string * string * string * string)) :=
  if unset (R2_ACCOUNT_ID penv) || unset (R2_ACCESS_KEY_ID penv)
     || unset (R2_SECRET_ACCESS_KEY penv)
  then Throw (Error "missing R2 credentials")
  else if unset (GH_BOT_TOKEN penv)
  then Throw (Error "missing GitHub bot token")
  else if negb (Z.of_nat (List.length argv) - 2 =? 4)
  then Throw (Error "expected 4 arguments - BUCKET_NAME, REPO_NAME, ISSUE_NUMBER, PARAMETER_PATH")
  else
    Ok (default "" (GH_BOT_TOKEN penv),
        (nth 2 argv "", nth 3 argv "", nth 4 argv "", nth 5 argv "")).

(** The whole module, lines 28-224. *)
Definition main (fuel : nat) (penv : ProcessEnv) (argv : list string) : M W unit :=
  set_exitCode 1 ;;;
  cfg <- await (setup penv argv) ;;
  let '(token, (bucket_name, repo_name, issue_number, param_path)) := cfg in
  try_catch (core fuel bucket_name repo_name issue_number token param_path)
    (report repo_name issue_number token) ;;;
  set_exitCode 0.
End Script.

(** ** A reference environment

    An in-memory bucket and a scripted tracker, on which the script runs
    by computation: the scenarios of the properties below are runs in this
    environment. *)
Module Sim.
Record World : Type := mkWorld {
  params : Res Body;
  store : gmap string Value;
  pages : list (option string * Res Listing);
  clock : Z;
  issues_api : Res Response;
  comments_api : Res Response;
  close_api : Res unit
}.

Definition with_store (w : World) (m : gmap string Value) : World :=
  mkWorld (params w) m (pages w) (clock w) (issues_api w) (comments_api w) (close_api w).

Definition NotFound : Exn := mkExn "NotFound" (Some 404).

Fixpoint page_at (token : option string) (ps : list (option string * Res Listing))
  : Res Listing :=
  match ps with
  | [] => Throw (mkExn "InvalidArgument" (Some 400))
  | (t, p) :: rest => if decide (t = token) then p else page_at token rest
  end.

#[export] Instance env : Env World := {|
  fs_readParams _ w := (params w, w);
  s3_headObject _ key w :=
    (match store w !! key with Some _ => Ok tt | None => Throw NotFound end, w);
  s3_getObject _ key w :=
    (match store w !! key with Some v => Found v | None => Missing end, w);
  s3_listObjectsV2 _ _ token w := (page_at token (pages w), w);
  s3_putObject _ key v w := (Ok tt, with_store w (<[key := v]> (store w)));
  s3_deleteObject _ key w := (Ok tt, with_store w (delete key (store w)));
  http_fetch req w :=
    (if endsWith (url req) "/comments" then comments_api w else issues_api w, w);
  gh_closeIssue _ _ _ w := (close_api w, w);
  Date_now w := (clock w, w)
|}.

(** A bucket layout. *)
#[export] Instance layout : internal.Paths := {|
  internal.lock p v := p ++ "/" ++ v ++ "/..LOCK";
  internal.expiry p v := p ++ "/" ++ v ++ "/..expiry.json";
  internal.versionMetadata p v := p ++ "/" ++ v ++ "/..revision.json";
  internal.aggregated p v := p ++ "/" ++ v ++ "/..aggregated.json";
  internal.permissions p := p ++ "/..permissions.json";
  internal.latestPersistent p := p ++ "/..latest.json";
  internal.latestAll p := p ++ "/..latest_all.json"
|}.

(** A run time that prints numbers in decimal and leaves the rest
    symbolic. *)
Definition show (v : Value) : string :=
  match v with
  | VUndefined => "undefined"
  | VNull => "null"
  | VBool true => "true"
  | VBool false => "false"
  | VNum n => pretty n
  | VNaN => "NaN"
  | VStr s => s
  | VArr _ => "[...]"
  | VObj fields => "{" ++ String.concat "," (map fst fields) ++ "}"
  end.

#[export] Instance runtime : Runtime := {|
  JSON_stringify := show;
  String_of := show;
  Date_toISOString v :=
    match v with
    | VNum n => Some ("T" ++ pretty n)
    | VStr s => Some s
    | _ => None
    end
|}.

Definition init (w : World) : St World := mkSt w [] [] 0.

Definition penv : ProcessEnv :=
  mkProcessEnv (Some "account") (Some "key") (Some "secret") (Some "bot-token").

Definition argv : list string :=
  ["node"; "src/index-project.js"; "bucket"; "owner/repo"; "7"; "params.json"].

Definition body1 : Body :=
  mkBody "p" "v1" (VNum 1000) (VBool false) (VObj [("owners", VArr [VStr "me"])]).

(** The first end-to-end scenario of spec section 8: project [p],
    version [v1], no pointers, no expiry file, two JSON objects. *)
Definition world1 : World :=
  mkWorld (Ok body1)
    (list_to_map [("p/v1/..LOCK", VNull);
                  ("p/v1/a.json", VObj [("a", VNum 1)]);
                  ("p/v1/b.json", VObj [("b", VNum 2)]);
                  ("p/v1/c.txt", VStr "c")])
    [(None, Ok (mkListing ["p/v1/a.json"; "p/v1/c.txt"] true (Some "next")));
     (Some "next", Ok (mkListing ["p/v1/b.json"] false None))]
    5000
    (Ok (mkResponse 201 (Ok (VObj [("number", VNum 42)]))))
    (Ok (mkResponse 201 (Ok VNull)))
    (Ok tt).

Definition with_comments_api (w : World) (r : Res Response) : World :=
  mkWorld (params w) (store w) (pages w) (clock w) (issues_api w) r (close_api w).

Definition with_close_api (w : World) (r : Res unit) : World :=
  mkWorld (params w) (store w) (pages w) (clock w) (issues_api w) (comments_api w) r.

(** The lock is absent. *)
Definition world_nolock : World :=
  with_store world1 (delete "p/v1/..LOCK" (store world1)).

(** The lock is absent and the tracker cannot be reached for the
    comment. *)
Definition fetch_failed : Exn := mkExn "fetch failed" None.

Definition world_mute : World := with_comments_api world_nolock (Throw fetch_failed).

(** Everything succeeds but the closing of the ticket. *)
Definition close_failed : Exn := Error "failed to close the issue".

Definition world_close_fails : World := with_close_api world1 (Throw close_failed).

(** A persistent pointer of an earlier version exists. *)
Definition pointer0 : Value := utils.formatLatest "v0" 4000.

Definition world_pointer : World :=
  with_store world1 (<["p/..latest.json" := pointer0]> (store world1)).

(** The second end-to-end scenario of spec section 8: an expiry file
    with [expires_in = 86400000]. *)
Definition expiry1 : Value := VObj [("expires_in", VNum 86400000)].

Definition world_expiry : World :=
  with_store world1 (<["p/v1/..expiry.json" := expiry1]> (store world1)).

Definition created : Response := mkResponse 201 (Ok (VObj [("number", VNum 42)])).

Definition cfg : string * (string * string * string * string) :=
  ("bot-token", ("bucket", "owner/repo", "7", "params.json")).
End Sim.

(** ** More cases in the reference environment *)
Module Cases.
Import Sim.

Definition with_params (w : World) (r : Res Body) : World :=
  mkWorld r (store w) (pages w) (clock w) (issues_api w) (comments_api w) (close_api w).

Definition with_pages (w : World) (ps : list (option string * Res Listing)) : World :=
  mkWorld (params w) (store w) ps (clock w) (issues_api w) (comments_api w) (close_api w).

Definition with_issues_api (w : World) (r : Res Response) : World :=
  mkWorld (params w) (store w) (pages w) (clock w) r (comments_api w) (close_api w).

(** The R2 account id is missing. *)
Definition penv_nocreds : ProcessEnv :=
  mkProcessEnv None (Some "key") (Some "secret") (Some "bot-token").

(** The parameter file is not JSON. *)
Definition parse_error : Exn := mkExn "Unexpected end of JSON input" None.

Definition world_badparams : World := with_params world1 (Throw parse_error).

(** The parameters carry no timestamp. *)
Definition body_notime : Body :=
  mkBody "p" "v1" VUndefined (VBool false) (VObj [("owners", VArr [VStr "me"])]).

Definition world_notime : World := with_params world1 (Ok body_notime).

(** The permissions are to be overwritten. *)
Definition body_overwrite : Body :=
  mkBody "p" "v1" (VNum 1000) (VBool true) (VObj [("owners", VArr [VStr "me"])]).

(** The tracker creates the ticket but its response is not JSON. *)
Definition garbled : Response := mkResponse 201 (Throw parse_error).

Definition world_garbled : World := with_issues_api world_expiry (Ok garbled).

(** The persistent pointer has no clock, is [null], or is a placeholder. *)
Definition pointer_noclock : Value := VObj [("version", VStr "v0")].

Definition world_noclock : World :=
  with_store world1 (<["p/..latest.json" := pointer_noclock]> (store world1)).

Definition world_nullpointer : World :=
  with_store world1 (<["p/..latest.json" := VNull]> (store world1)).

Definition placeholder : Value := utils.formatLatest "" (-1).

Definition world_placeholder : World :=
  with_store world1 (<["p/..latest.json" := placeholder]> (store world1)).

(** The version holds no JSON object; the listing fails. *)
Definition page_nojson : Listing := mkListing ["p/v1/c.txt"] false None.

Definition world_nojson : World := with_pages world1 [(None, Ok page_nojson)].

Definition world_nolisting : World := with_pages world1 [].

(** The comment is refused by the tracker. *)
Definition refused : Response := mkResponse 401 (Ok VNull).

Definition world_refused : World := with_comments_api world_nolock (Ok refused).

(** A storage that denies every head request. *)
Definition denied : Exn := mkExn "Forbidden" (Some 403).

Definition env_denied : Env World := {|
  fs_readParams := fs_readParams (Env := env);
  s3_headObject _ _ w := (Throw denied, w);
  s3_getObject := s3_getObject (Env := env);
  s3_listObjectsV2 := s3_listObjectsV2 (Env := env);
  s3_putObject := s3_putObject (Env := env);
  s3_deleteObject := s3_deleteObject (Env := env);
  http_fetch := http_fetch (Env := env);
  gh_closeIssue := gh_closeIssue (Env := env);
  Date_now := Date_now (Env := env)
|}.

(** A storage whose every page is truncated. *)
Definition page_truncated : Listing := mkListing [] true None.

Definition env_endless : Env World := {|
  fs_readParams := fs_readParams (Env := env);
  s3_headObject := s3_headObject (Env := env);
  s3_getObject := s3_getObject (Env := env);
  s3_listObjectsV2 _ _ _ w := (Ok page_truncated, w);
  s3_putObject := s3_putObject (Env := env);
  s3_deleteObject := s3_deleteObject (Env := env);
  http_fetch := http_fetch (Env := env);
  gh_closeIssue := gh_closeIssue (Env := env);
  Date_now := Date_now (Env := env)
|}.

(** Two of four writes are rejected. *)
Definition rejected1 : Exn := mkExn "SlowDown" (Some 503).
Definition rejected2 : Exn := mkExn "InternalError" (Some 500).

Definition state_rejected : St World :=
  mkSt world1 [] [Ok tt; Throw rejected1; Ok tt; Throw rejected2] 1.

(** A storage that rejects the writing of the [latest_all] pointer, the
    last call of the body of the [try]. *)
Definition env_sealed : Env World := {|
  fs_readParams := fs_readParams (Env := env);
  s3_headObject := s3_headObject (Env := env);
  s3_getObject := s3_getObject (Env := env);
  s3_listObjectsV2 := s3_listObjectsV2 (Env := env);
  s3_putObject b key v w :=
    if decide (key = "p/..latest_all.json") then (Throw denied, w)
    else s3_putObject (Env := env) b key v w;
  s3_deleteObject := s3_deleteObject (Env := env);
  http_fetch := http_fetch (Env := env);
  gh_closeIssue := gh_closeIssue (Env := env);
  Date_now := Date_now (Env := env)
|}.

(** One write is pending and has settled well. *)
Definition state_pending : St World := mkSt world1 [] [Ok tt] 1.
End Cases.


(** ** Reading a trace *)

Local Open Scope list_scope.

(** The storage writes of a trace: the objects put, and the keys deleted. *)
Definition puts (evs : list Event) : list (string * string * Value) :=
  flat_map (fun ev =>
    match ev with
    | EvPutObject bucket key v _ => [(bucket, key, v)]
    | _ => []
    end) evs.

Definition put_outcomes (evs : list Event) : list (Res unit) :=
  flat_map (fun ev =>
    match ev with
    | EvPutObject _ _ _ r => [r]
    | _ => []
    end) evs.

Definition deletes (evs : list Event) : list (string * string) :=
  flat_map (fun ev =>
    match ev with
    | EvDeleteObject bucket key _ => [(bucket, key)]
    | _ => []
    end) evs.

(** The keys whose deletion succeeded. *)
Definition deleted (evs : list Event) : list (string * string) :=
  flat_map (fun ev =>
    match ev with
    | EvDeleteObject bucket key (Ok _) => [(bucket, key)]
    | _ => []
    end) evs.

(** The error of the lock check. *)
Definition lock_error : Exn :=
  Error "failed to acquire the lock file for this project version".

(** What a latest-pointer update finds at the path of the pointer: no
    object, or a pointer whose [index_time] is a number. *)
Inductive Pointer : Type :=
| Absent
| Clock (t : Z).

Definition pointer_state (got : Fetched) : option Pointer :=
  match got with
  | Missing => Some Absent
  | Found content =>
      match prop content "index_time" with
      | Ok (VNum t) => Some (Clock t)
      | _ => None
      end
  | Failed _ => None
  end.


(** What the promise of [utils.getJson] settles with. *)
Definition settled (got : Fetched) : Res Value :=
  match got with
  | Found content => Ok content
  | Missing => Ok VNull
  | Failed e => Throw e
  end.

(** The keys listed by the pages of a trace, the objects fetched (key and
    promise), and the listing calls (bucket, prefix, token, answer). *)
Definition listed (evs : list Event) : list string :=
  flat_map (fun ev =>
    match ev with
    | EvListObjectsV2 _ _ _ (Ok info) => Contents info
    | _ => []
    end) evs.

Definition fetched (evs : list Event) : list (string * Res Value) :=
  flat_map (fun ev =>
    match ev with
    | EvGetObject _ key got => [(key, settled got)]
    | _ => []
    end) evs.

Definition listings (evs : list Event)
  : list (string * string * option string * Res Listing) :=
  flat_map (fun ev =>
    match ev with
    | EvListObjectsV2 bucket prefix token r => [(bucket, prefix, token, r)]
    | _ => []
    end) evs.

(** A paginated listing: every call is on the same bucket and prefix, the
    first passes [token], each next one passes the continuation token of
    the page before, and the last page, and only it, is not truncated. *)
Fixpoint paginated (bucket prefix : string) (token : option string)
    (calls : list (string * string * option string * Res Listing)) : Prop :=
  match calls with
  | [] => False
  | (b, p, t, r) :: rest =>
      b = bucket /\ p = prefix /\ t = token
      /\ exists info, r = Ok info
         /\ if IsTruncated info
            then paginated bucket prefix (NextContinuationToken info) rest
            else rest = []
  end.

Definition is_json (key : string) : bool := endsWith key ".json".

(** The events of the phase before the commit: every call but the
    deletion of an object, the closing of the ticket and the logging of an
    error. *)
Definition quiet (ev : Event) : Prop :=
  match ev with
  | EvDeleteObject _ _ _ | EvCloseIssue _ _ _ _ | EvConsoleError _ => False
  | _ => True
  end.

(** A computation that only makes calls whose events satisfy [P], keeps
    [writes] in step with the objects it puts, and leaves the exit code
    alone. *)
Definition steps {W A} (P : Event -> Prop) (m : M W A) : Prop :=
  forall s r s', m s = Some (r, s') ->
    exists evs,
      trace s' = trace s ++ evs
      /\ Forall P evs
      /\ writes s' = writes s ++ put_outcomes evs
      /\ exitCode s' = exitCode s.

(** The calls of the body of the [try] and the array [writes] at its end,
    by the way it ends: it is aborted before the lock is touched; or the
    promises of all the objects put have been awaited and have settled
    well, and the deletion of the lock fails; or the lock is deleted and
    the closing of the ticket gives the outcome. *)
Inductive core_run `{internal.Paths} (bucket repo issue token path : string)
  : Res unit -> list Event -> list (Res unit) -> Prop :=
| run_aborted e evs ws :
    Forall quiet evs ->
    core_run bucket repo issue token path (Throw e) evs ws
| run_unlock_failed body pre e :
    Forall quiet pre ->
    Forall (fun p => p = Ok tt) (put_outcomes pre) ->
    core_run bucket repo issue token path (Throw e)
      (EvReadFile path (Ok body) :: pre
         ++ [EvDeleteObject bucket (internal.lock (project body) (version body)) (Throw e)])
      (put_outcomes pre)
| run_unlocked body pre r :
    Forall quiet pre ->
    Forall (fun p => p = Ok tt) (put_outcomes pre) ->
    core_run bucket repo issue token path r
      (EvReadFile path (Ok body) :: pre
         ++ [EvDeleteObject bucket (internal.lock (project body) (version body)) (Ok tt);
             EvCloseIssue repo issue token r])
      (put_outcomes pre).

(** ** Vocabulary of the further properties *)

(** An environment variable that is set and not empty. *)
Definition provided (x : option string) : Prop :=
  exists v, x = Some v /\ v <> "".

(** [typeof x == "number"]. *)
Definition is_number (x : Value) : bool :=
  match x with
  | VNum _ | VNaN => true
  | _ => false
  end.

(** The error of a latest pointer without a numeric clock. *)
Definition latest_error : Exn :=
  Error "latest file should contain a 'index_time' number".

(** [(await res.json()).number]. *)
Definition ticket_number (res : Response) : Res Value :=
  match json res with
  | Ok payload => prop payload "number"
  | Throw e => Throw e
  end.

(** The five objects a run may write for the project and version of
    [body]. *)
Definition well_known `{internal.Paths} (body : Body) (key : string) : Prop :=
  key = internal.versionMetadata (project body) (version body)
  \/ key = internal.aggregated (project body) (version body)
  \/ key = internal.permissions (project body)
  \/ key = internal.latestPersistent (project body)
  \/ key = internal.latestAll (project body).

(** The calls a run may make after it has read its parameters: storage
    calls on the configured bucket only, heads on the lock and on the
    permissions, listings of the prefix of the version, puts on the five
    well-known objects, the deletion of the lock, the expiry ticket and
    the closing of the originating ticket. *)
Definition confined `{Runtime} `{internal.Paths} (bucket repo issue token : string)
    (body : Body) (ev : Event) : Prop :=
  match ev with
  | EvReadFile _ _ | EvConsoleError _ => False
  | EvHeadObject b k _ =>
      b = bucket
      /\ (k = internal.lock (project body) (version body)
          \/ k = internal.permissions (project body))
  | EvGetObject b _ _ => b = bucket
  | EvListObjectsV2 b p _ _ =>
      b = bucket /\ p = (project body ++ "/" ++ version body ++ "/")%string
  | EvPutObject b k _ _ => b = bucket /\ well_known body k
  | EvDeleteObject b k _ =>
      b = bucket /\ k = internal.lock (project body) (version body)
  | EvFetch req _ => exists expired, req = expiry_request repo token body expired
  | EvCloseIssue r i t _ => r = repo /\ i = issue /\ t = token
  | EvDateNow _ => True
  end.

(** The tickets closed by a trace. *)
Definition closed (evs : list Event) : list (string * string * string * Res unit) :=
  flat_map (fun ev =>
    match ev with
    | EvCloseIssue repo issue token r => [(repo, issue, token, r)]
    | _ => []
    end) evs.

(** The calls that only read the bucket. *)
Definition reading (ev : Event) : Prop :=
  match ev with
  | EvGetObject _ _ _ | EvListObjectsV2 _ _ _ _ => True
  | _ => False
  end.

(** ** The listing of a version, as the storage answers it *)

Section Listing.
Context {W : Type} {Henv : Env W}.

(** The content a fetch resolves with: that of the object, [null] for a
    missing object. *)
Definition fetched_value (got : Fetched) : Value :=
  match got with
  | Found content => content
  | Missing | Failed _ => VNull
  end.

(** A fetch that is not rejected. *)
Definition resolves (got : Fetched) : Prop :=
  match got with
  | Failed _ => False
  | _ => True
  end.

(** What the storage answers when the keys of a page that end with
    [.json] are fetched one after the other, in the order of the page. *)
Fixpoint page_fetches (bucket : string) (contents : list string) (w : W)
  : list (string * Fetched) * W :=
  match contents with
  | [] => ([], w)
  | key :: rest =>
      if is_json key then
        let '(got, w1) := s3_getObject bucket key w in
        let '(gets, w2) := page_fetches bucket rest w1 in
        ((key, got) :: gets, w2)
      else page_fetches bucket rest w
  end.

(** The listing of [prefix] followed from [token] in the world [w]: the
    pages the storage gives when each truncated page is continued with
    its continuation token, up to the first page that is not truncated,
    with the answers to the fetches of the JSON keys of each page, and the
    world at the end. *)
Inductive listing_of (bucket prefix : string)
  : option string -> W -> list Listing -> list (string * Fetched) -> W -> Prop :=
| listing_last token w info w1 gets w2 :
    s3_listObjectsV2 bucket prefix token w = (Ok info, w1) ->
    IsTruncated info = false ->
    page_fetches bucket (Contents info) w1 = (gets, w2) ->
    listing_of bucket prefix token w [info] gets w2
| listing_more token w info w1 gets1 w2 pages gets2 w3 :
    s3_listObjectsV2 bucket prefix token w = (Ok info, w1) ->
    IsTruncated info = true ->
    page_fetches bucket (Contents info) w1 = (gets1, w2) ->
    listing_of bucket prefix (NextContinuationToken info) w2 pages gets2 w3 ->
    listing_of bucket prefix token w (info :: pages) (gets1 ++ gets2) w3.
End Listing.

(** ** Rejections and their handlers *)

(** The answer of a call whose promise is rejected: a write or a fetch
    that fails. *)
Definition rejected (ev : Event) : bool :=
  match ev with
  | EvPutObject _ _ _ (Throw _) | EvGetObject _ _ (Failed _) => true
  | _ => false
  end.

(** Nothing, or the two calls of the [catch]. *)
Definition report_only (evs : list Event) : bool :=
  match evs with
  | [] | [EvConsoleError _; EvFetch _ _] => true
  | _ => false
  end.

(** No write and no fetch is rejected while the body of the [try] still
    makes calls: a rejected one is the last call of the body.  Its promise
    is then awaited, by itself or through [Promise.all], before the
    script waits for anything else, so that the rejection finds its
    handler and is the only one. *)
Fixpoint handled_in_time (evs : list Event) : bool :=
  match evs with
  | [] => true
  | ev :: post => (negb (rejected ev) || report_only post) && handled_in_time post
  end.

(** * Properties *)

(** ** Running a computation step by step *)

Section Steps.
Context {W : Type}.

Lemma bind_ok {A B} (m : M W A) (k : A -> M W B) s a s1 :
  m s = Some (Ok a, s1) -> bind m k s = k a s1.
Proof. unfold bind; intros ->; reflexivity. Qed.

Lemma bind_throw {A B} (m : M W A) (k : A -> M W B) s e s1 :
  m s = Some (Throw e, s1) -> bind m k s = Some (Throw e, s1).
Proof. unfold bind; intros ->; reflexivity. Qed.

Lemma bind_inv {A B} (m : M W A) (k : A -> M W B) s r s' :
  bind m k s = Some (r, s') ->
  (exists a s1, m s = Some (Ok a, s1) /\ k a s1 = Some (r, s'))
  \/ (exists e, m s = Some (Throw e, s') /\ r = Throw e).
Proof.
  unfold bind; destruct (m s) as [[[a|e] s1]|]; intros E; [left|right|discriminate].
  - exists a, s1; auto.
  - injection E as <- <-; exists e; auto.
Qed.

Lemma try_catch_ok {A} (m : M W A) h s a s1 :
  m s = Some (Ok a, s1) -> try_catch m h s = Some (Ok a, s1).
Proof. unfold try_catch; intros ->; reflexivity. Qed.

Lemma try_catch_throw {A} (m : M W A) h s e s1 :
  m s = Some (Throw e, s1) -> try_catch m h s = h e s1.
Proof. unfold try_catch; intros ->; reflexivity. Qed.

Lemma try_catch_inv {A} (m : M W A) h s r s' :
  try_catch m h s = Some (r, s') ->
  (exists a, m s = Some (Ok a, s') /\ r = Ok a)
  \/ (exists e s1, m s = Some (Throw e, s1) /\ h e s1 = Some (r, s')).
Proof.
  unfold try_catch; destruct (m s) as [[[a|e] s1]|]; intros E; [left|right|discriminate].
  - injection E as <- <-; exists a; auto.
  - exists e, s1; auto.
Qed.

Lemma call_eq {A} (op : W -> A * W) ev s a w :
  op (world s) = (a, w) ->
  call op ev s = Some (Ok a, mkSt w (trace s ++ [ev a]) (writes s) (exitCode s)).
Proof. unfold call; intros ->; reflexivity. Qed.

(** A call whose answer is awaited at once. *)
Lemma call_await_eq {A} (op : W -> Res A * W) ev s r w :
  op (world s) = (r, w) ->
  (x <- call op ev ;; await x) s
    = Some (r, mkSt w (trace s ++ [ev r]) (writes s) (exitCode s)).
Proof.
  intros E; rewrite (bind_ok _ _ _ _ _ (call_eq _ _ _ _ _ E)); destruct r; reflexivity.
Qed.

Lemma call_await_inv {A} (op : W -> Res A * W) ev s r s' :
  (x <- call op ev ;; await x) s = Some (r, s') ->
  exists w, op (world s) = (r, w)
    /\ s' = mkSt w (trace s ++ [ev r]) (writes s) (exitCode s).
Proof.
  destruct (op (world s)) as [r0 w] eqn:E.
  rewrite (call_await_eq _ _ _ _ _ E); intros [= <- <-]; eauto.
Qed.

Lemma async_eq {A} (m : M W A) s r s1 :
  m s = Some (r, s1) -> async m s = Some (Ok r, s1).
Proof. unfold async; intros ->; reflexivity. Qed.

(** *** The calculus of [steps] *)

Lemma steps_nil {A} P (m : M W A) :
  (forall s r s', m s = Some (r, s') -> s' = s) -> steps P m.
Proof.
  intros Hm s r s' E. apply Hm in E as ->.
  exists []. rewrite !app_nil_r. auto.
Qed.

Lemma steps_ret {A} P (a : A) : steps P (ret (W:=W) a).
Proof. apply steps_nil. unfold ret. congruence. Qed.

Lemma steps_throw {A} P e : steps P (throw (W:=W) (A:=A) e).
Proof. apply steps_nil. unfold throw. congruence. Qed.

Lemma steps_diverge {A} P : steps P (diverge (W:=W) (A:=A)).
Proof. intros s r s'. discriminate. Qed.

Lemma steps_await {A} P (p : Res A) : steps P (await (W:=W) p).
Proof. destruct p; [apply steps_ret|apply steps_throw]. Qed.

Lemma steps_get_writes P : steps P (get_writes (W:=W)).
Proof. apply steps_nil. unfold get_writes. congruence. Qed.

Lemma put_outcomes_app evs1 evs2 :
  put_outcomes (evs1 ++ evs2) = put_outcomes evs1 ++ put_outcomes evs2.
Proof. apply flat_map_app. Qed.

Lemma puts_app evs1 evs2 : puts (evs1 ++ evs2) = puts evs1 ++ puts evs2.
Proof. apply flat_map_app. Qed.

Lemma steps_trans P (s s1 s2 : St W) evs1 evs2 :
  trace s1 = trace s ++ evs1 -> Forall P evs1 ->
  writes s1 = writes s ++ put_outcomes evs1 -> exitCode s1 = exitCode s ->
  trace s2 = trace s1 ++ evs2 -> Forall P evs2 ->
  writes s2 = writes s1 ++ put_outcomes evs2 -> exitCode s2 = exitCode s1 ->
  trace s2 = trace s ++ (evs1 ++ evs2) /\ Forall P (evs1 ++ evs2)
  /\ writes s2 = writes s ++ put_outcomes (evs1 ++ evs2) /\ exitCode s2 = exitCode s.
Proof.
  intros -> F1 -> -> -> F2 -> ->.
  rewrite put_outcomes_app, !app_assoc.
  repeat split; auto. apply Forall_app; auto.
Qed.

Lemma steps_bind {A B} P (m : M W A) (k : A -> M W B) :
  steps P m -> (forall a, steps P (k a)) -> steps P (bind m k).
Proof.
  intros Hm Hk s r s' E.
  apply bind_inv in E as [(a & s1 & E1 & E2)|(e & E1 & ->)].
  - apply Hm in E1 as (evs1 & T1 & F1 & W1 & X1).
    apply Hk in E2 as (evs2 & T2 & F2 & W2 & X2).
    exists (evs1 ++ evs2). eapply steps_trans; eauto.
  - apply Hm in E1. exact E1.
Qed.

Lemma steps_try_catch {A} P (m : M W A) h :
  steps P m -> (forall e, steps P (h e)) -> steps P (try_catch m h).
Proof.
  intros Hm Hh s r s' E.
  apply try_catch_inv in E as [(a & E1 & ->)|(e & s1 & E1 & E2)].
  - apply Hm in E1. exact E1.
  - apply Hm in E1 as (evs1 & T1 & F1 & W1 & X1).
    apply Hh in E2 as (evs2 & T2 & F2 & W2 & X2).
    exists (evs1 ++ evs2). eapply steps_trans; eauto.
Qed.

Lemma steps_async {A} P (m : M W A) : steps P m -> steps P (async m).
Proof.
  intros Hm s r s'. unfold async.
  destruct (m s) as [[r1 s1]|] eqn:E; [|discriminate].
  intros [= <- <-]. eapply Hm; eauto.
Qed.

Lemma steps_call {A} P (op : W -> A * W) ev :
  (forall a, P (ev a) /\ put_outcomes [ev a] = []) -> steps P (call op ev).
Proof.
  intros Hev s r s'. unfold call. destruct (op (world s)) as [a w].
  intros [= <- <-]. exists [ev a]. destruct (Hev a) as [Pa Na].
  cbn [trace writes exitCode]. rewrite Na, app_nil_r. auto.
Qed.
End Steps.

Create HintDb quiet.

Section Properties.
Context {W : Type} {Henv : Env W} {Hrt : Runtime} {Hpaths : internal.Paths}.

Lemma headObject_eq bucket key (s : St W) r w :
  s3_headObject bucket key (world s) = (r, w) ->
  headObject bucket key s
    = Some (r, mkSt w (trace s ++ [EvHeadObject bucket key r]) (writes s) (exitCode s)).
Proof. apply call_await_eq. Qed.

Lemma fetch_eq req (s : St W) r w :
  http_fetch req (world s) = (r, w) ->
  fetch req s = Some (r, mkSt w (trace s ++ [EvFetch req r]) (writes s) (exitCode s)).
Proof. apply call_await_eq. Qed.

(** What the [catch] does with an exception: it logs it and posts its
    message; it returns when the POST returns and throws what the POST
    throws. *)
Lemma report_eq repo issue token e (s : St W) c w :
  http_fetch (comment_request repo issue token e) (world s) = (c, w) ->
  report repo issue token e s
    = Some (match c with Ok _ => Ok tt | Throw e' => Throw e' end,
            mkSt w (trace s ++ [EvConsoleError e;
                                EvFetch (comment_request repo issue token e) c])
              (writes s) (exitCode s)).
Proof.
  intros E. unfold report.
  erewrite bind_ok by reflexivity.
  destruct c as [res|e'].
  - erewrite bind_ok by (apply fetch_eq; exact E).
    cbn. rewrite <- app_assoc. reflexivity.
  - erewrite bind_throw by (apply fetch_eq; exact E).
    cbn. rewrite <- app_assoc. reflexivity.
Qed.

(** *** Every block of the script before the commit is quiet *)

Ltac quiet_call :=
  apply steps_call; intros ?; split; [exact I|reflexivity].

Ltac quiet_step :=
  first
    [ apply steps_ret | apply steps_throw | apply steps_await
    | apply steps_get_writes | quiet_call
    | apply steps_async
    | apply steps_bind; [|intros ?]
    | apply steps_try_catch; [|intros ?]
    | match goal with
      | |- steps _ (if ?b then _ else _) => destruct b
      | |- steps _ (match ?x with _ => _ end) => destruct x
      end ].

Lemma steps_getJson bucket key : steps quiet (utils.getJson (W:=W) bucket key).
Proof. unfold utils.getJson. repeat quiet_step. Qed.

Lemma steps_toISOString x : steps quiet (toISOString (W:=W) x).
Proof. unfold toISOString. repeat quiet_step. Qed.

Lemma steps_headObject bucket key : steps quiet (headObject (W:=W) bucket key).
Proof. unfold headObject. repeat quiet_step. Qed.

Lemma steps_fetch req : steps quiet (fetch (W:=W) req).
Proof. unfold fetch. repeat quiet_step. Qed.

(** Issuing a write adds its promise to [writes]. *)
Lemma push_putJson_eq bucket key v (s : St W) p w :
  s3_putObject bucket key v (world s) = (p, w) ->
  push_putJson bucket key v s
    = Some (Ok tt, mkSt w (trace s ++ [EvPutObject bucket key v p]) (writes s ++ [p])
                     (exitCode s)).
Proof.
  intros E. unfold push_putJson, utils.putJson.
  erewrite bind_ok by (apply async_eq, call_await_eq; exact E).
  reflexivity.
Qed.

Lemma steps_push_putJson bucket key v :
  steps quiet (push_putJson (W:=W) bucket key v).
Proof.
  intros s r s'. destruct (s3_putObject bucket key v (world s)) as [p w] eqn:E.
  rewrite (push_putJson_eq _ _ _ _ _ _ E). intros [= <- <-].
  exists [EvPutObject bucket key v p]. cbn. repeat split; auto.
  constructor; [exact I|constructor].
Qed.

Hint Resolve steps_getJson steps_toISOString steps_headObject steps_fetch
  steps_push_putJson : quiet.

Ltac quiet_block := repeat first [ solve [auto with quiet] | quiet_step ].

Lemma steps_lock_check bucket lockpath :
  steps quiet (lock_check (W:=W) bucket lockpath).
Proof. unfold lock_check. quiet_block. Qed.

Lemma steps_version_metadata bucket repo token body index_time :
  steps quiet (version_metadata (W:=W) bucket repo token body index_time).
Proof. unfold version_metadata. quiet_block. Qed.

Lemma steps_collect_page bucket contents agg :
  steps quiet (collect_page (W:=W) bucket contents agg).
Proof.
  revert agg. induction contents as [|key rest IH]; intros agg; cbn [collect_page].
  - quiet_block.
  - destruct (endsWith key ".json"); [|apply IH].
    apply steps_bind; [quiet_block|intros p; apply IH].
Qed.

Lemma steps_listing_loop fuel bucket prefix token agg :
  steps quiet (listing_loop (W:=W) fuel bucket prefix token agg).
Proof.
  revert token agg. induction fuel as [|fuel IH]; intros token agg; cbn [listing_loop].
  - apply steps_diverge.
  - apply steps_bind; [quiet_call|intros r].
    apply steps_bind; [apply steps_await|intros info].
    apply steps_bind; [apply steps_collect_page|intros agg'].
    destruct (IsTruncated info); [apply IH|apply steps_ret].
Qed.

Hint Resolve steps_lock_check steps_version_metadata steps_listing_loop : quiet.

Lemma steps_aggregation fuel bucket body :
  steps quiet (aggregation (W:=W) fuel bucket body).
Proof. unfold aggregation. quiet_block. Qed.

Lemma steps_save_permissions bucket body :
  steps quiet (save_permissions (W:=W) bucket body).
Proof. unfold save_permissions. quiet_block. Qed.

Lemma steps_fill_latest bucket l v i : steps quiet (fill_latest (W:=W) bucket l v i).
Proof. unfold fill_latest. quiet_block. Qed.

Hint Resolve steps_aggregation steps_save_permissions steps_fill_latest : quiet.

Lemma steps_update_latest bucket body has_expiry index_time :
  steps quiet (update_latest (W:=W) bucket body has_expiry index_time).
Proof. unfold update_latest, fill_persistent. quiet_block. Qed.

(** *** Latest pointers *)

Lemma getJson_eq bucket key (s : St W) got w :
  s3_getObject bucket key (world s) = (got, w) ->
  utils.getJson bucket key s
    = Some (match got with
            | Found content => Ok content
            | Missing => Ok VNull
            | Failed e => Throw e
            end,
            mkSt w (trace s ++ [EvGetObject bucket key got]) (writes s) (exitCode s)).
Proof.
  intros E. unfold utils.getJson.
  erewrite bind_ok by (apply call_eq; exact E).
  destruct got; reflexivity.
Qed.

(** What [fill_latest] does on a pointer that is absent or carries a
    numeric clock: one read, and one write exactly when the pointer is
    absent or older than the candidate. *)
Lemma fill_latest_eq bucket l v i (s : St W) got w1 st p w2 :
  s3_getObject bucket l (world s) = (got, w1) ->
  pointer_state got = Some st ->
  s3_putObject bucket l (utils.formatLatest v i) w1 = (p, w2) ->
  fill_latest bucket l v i s
    = Some (Ok tt,
            if match st with Absent => true | Clock t => t <? i end
            then mkSt w2
                   (trace s ++ [EvGetObject bucket l got;
                                EvPutObject bucket l (utils.formatLatest v i) p])
                   (writes s ++ [p]) (exitCode s)
            else mkSt w1 (trace s ++ [EvGetObject bucket l got]) (writes s) (exitCode s)).
Proof.
  intros Hget Hst Hput. unfold fill_latest.
  destruct got as [content| |e]; cbn in Hst; [|injection Hst as <-|discriminate];
    erewrite bind_ok by (erewrite getJson_eq by exact Hget; reflexivity).
  - destruct (prop content "index_time") as [[| | |t| | | |]|] eqn:Hprop;
      try discriminate.
    injection Hst as <-.
    assert (Hnn : loose_null content = false)
      by (destruct content; try reflexivity; discriminate).
    rewrite Hnn.
    erewrite bind_ok by reflexivity. cbv beta.
    destruct (t <? i); [|reflexivity].
    erewrite push_putJson_eq by exact Hput. cbn. rewrite <- app_assoc. reflexivity.
  - cbn [loose_null]. erewrite bind_ok by reflexivity. cbv beta iota.
    erewrite push_putJson_eq by exact Hput. cbn. rewrite <- app_assoc. reflexivity.
Qed.

(** C2. A latest-pointer update ([fill_latest], which the script calls
    for the persistent pointer and for the all-versions pointer) that
    finds no pointer object, or a pointer with a numeric [index_time],
    returns after reading the pointer.  It writes the candidate when no
    pointer exists; on an existing pointer it writes the candidate if
    and only if the stored [index_time] is strictly less than the
    candidate's, and otherwise makes no further call: the pointer
    object is left as it is. *)
Theorem fill_latest_overwrites_iff_older
    (bucket l v : string) (i : Z) (s : St W) (got : Fetched) (w1 : W) (st : Pointer) :
  s3_getObject bucket l (world s) = (got, w1) ->
  pointer_state got = Some st ->
  exists s' evs,
    fill_latest bucket l v i s = Some (Ok tt, s')
    /\ trace s' = trace s ++ EvGetObject bucket l got :: evs
    /\ (st = Absent -> puts evs = [(bucket, l, utils.formatLatest v i)])
    /\ (forall t, st = Clock t ->
          (puts evs = [(bucket, l, utils.formatLatest v i)] <-> t < i)
          /\ (i <= t -> evs = [] /\ world s' = w1 /\ writes s' = writes s)).
Proof.
  intros Hget Hst.
  destruct (s3_putObject bucket l (utils.formatLatest v i) w1) as [p w2] eqn:Hput.
  rewrite (fill_latest_eq _ _ _ _ _ _ _ _ _ _ Hget Hst Hput).
  destruct st as [|t].
  - eexists _, _. split; [reflexivity|]. cbn [trace].
    split; [reflexivity|].
    split; [reflexivity|discriminate].
  - destruct (Z.ltb_spec t i) as [Lt|Ge].
    + eexists _, _. split; [reflexivity|]. cbn [trace].
      split; [reflexivity|].
      split; [discriminate|]. intros t' [= <-].
      split; [split; [auto|reflexivity]|lia].
    + exists (mkSt w1 (trace s ++ [EvGetObject bucket l got]) (writes s) (exitCode s)), [].
      split; [reflexivity|]. cbn [trace].
      split; [reflexivity|].
      split; [discriminate|]. intros t' [= <-].
      split; [split; [discriminate|lia]|auto].
Qed.

(** C3. For a version with an expiry, the candidate for the persistent
    pointer is the placeholder (empty version, [index_time] -1).  When
    the existing pointer, if any, is a placeholder or a real pointer
    (its clock is the sentinel -1 or a clock value, which is not below
    it), the placeholder is written if and only if no pointer object
    exists; on an existing pointer the run makes no call after reading
    it. *)
Theorem expiring_version_keeps_persistent_pointer
    (bucket : string) (body : Body) (index_time : Z) (s : St W)
    (got : Fetched) (w1 : W) (st : Pointer) :
  s3_getObject bucket (internal.latestPersistent (project body)) (world s) = (got, w1) ->
  pointer_state got = Some st ->
  (forall t, st = Clock t -> -1 <= t) ->
  exists s' evs,
    fill_persistent bucket body true index_time s = Some (Ok tt, s')
    /\ trace s' = trace s
         ++ EvGetObject bucket (internal.latestPersistent (project body)) got :: evs
    /\ (puts evs = [(bucket, internal.latestPersistent (project body),
                     utils.formatLatest "" (-1))]
        <-> st = Absent)
    /\ (st <> Absent -> evs = [] /\ world s' = w1 /\ writes s' = writes s).
Proof.
  intros Hget Hst Hsentinel. unfold fill_persistent.
  destruct (s3_putObject bucket (internal.latestPersistent (project body))
              (utils.formatLatest "" (-1)) w1) as [p w2] eqn:Hput.
  rewrite (fill_latest_eq _ _ _ _ _ _ _ _ _ _ Hget Hst Hput).
  destruct st as [|t].
  - eexists _, _. split; [reflexivity|]. cbn [trace].
    split; [reflexivity|].
    split; [split; reflexivity|congruence].
  - specialize (Hsentinel t eq_refl).
    destruct (Z.ltb_spec t (-1)) as [Lt|Ge]; [lia|].
    exists (mkSt w1 (trace s ++ [EvGetObject bucket
              (internal.latestPersistent (project body)) got]) (writes s) (exitCode s)), [].
    split; [reflexivity|]. cbn [trace].
    split; [reflexivity|].
    split; [split; discriminate|auto].
Qed.

(** *** Permissions *)


(** *** Version metadata and the expiry job *)

Lemma toISOString_eq x iso (s : St W) :
  Date_toISOString x = Some iso -> toISOString x s = Some (Ok iso, s).
Proof. unfold toISOString; intros ->; reflexivity. Qed.

(** C7. When an expiry file exists for the version, with a number as
    [expires_in], the script posts a ticket to the [issues] endpoint of
    the repository whose body carries the project, the version, the
    mode [expiry] and [delete_after = index_time + expires_in].  If the
    response is not a 2xx success the block throws, and no version
    metadata is written.  If it is, the version metadata is written
    with [expiry_time] the date of [index_time + expires_in] and
    [expiry_job_id] the [number] of the response. *)
Theorem expiry_job_recorded
    (bucket repo token : string) (body : Body) (index_time expires_in : Z)
    (upload_time index_iso expiry_time : string)
    (exp_info : Value) (res : Response) (s : St W) (w1 w2 : W) :
  Date_toISOString (timestamp body) = Some upload_time ->
  Date_toISOString (VNum index_time) = Some index_iso ->
  s3_getObject bucket (internal.expiry (project body) (version body)) (world s)
    = (Found exp_info, w1) ->
  prop exp_info "expires_in" = Ok (VNum expires_in) ->
  Date_toISOString (VNum (index_time + expires_in)) = Some expiry_time ->
  http_fetch (expiry_request repo token body (VNum (index_time + expires_in))) w1
    = (Ok res, w2) ->
  let req := expiry_request repo token body (VNum (index_time + expires_in)) in
  let calls :=
    [EvGetObject bucket (internal.expiry (project body) (version body)) (Found exp_info);
     EvFetch req (Ok res)] in
  (url req = ("https://api.github.com/repos/" ++ repo ++ "/issues")%string
   /\ method req = "POST"
   /\ req_body req
      = JSON_stringify (VObj [
          ("title", VStr "purge project");
          ("body", VStr (JSON_stringify (VObj [
             ("project", VStr (project body));
             ("version", VStr (version body));
             ("mode", VStr "expiry");
             ("delete_after", VNum (index_time + expires_in))])))]))
  /\ (~ (200 <= status res <= 299) ->
      version_metadata bucket repo token body index_time s
        = Some (Throw (Error "failed to post an expiry job"),
                mkSt w2 (trace s ++ calls) (writes s) (exitCode s)))
  /\ (200 <= status res <= 299 ->
      forall payload number,
        json res = Ok payload ->
        prop payload "number" = Ok number ->
        exists p w3,
          version_metadata bucket repo token body index_time s
            = Some (Ok true,
                    mkSt w3
                      (trace s ++ calls
                         ++ [EvPutObject bucket
                               (internal.versionMetadata (project body) (version body))
                               (VObj [("upload_time", VStr upload_time);
                                      ("index_time", VStr index_iso);
                                      ("expiry_time", VStr expiry_time);
                                      ("expiry_job_id", number)]) p])
                      (writes s ++ [p]) (exitCode s))).
Proof.
  intros Hup Hidx Hget Hexp Hexpiry Hfetch req calls.
  assert (Hnn : strict_not_null exp_info = true)
    by (destruct exp_info; try reflexivity; discriminate).
  split; [repeat split|].
  split.
  - intros Hstatus. unfold version_metadata.
    erewrite bind_ok by (apply toISOString_eq; exact Hup).
    erewrite bind_ok by (apply toISOString_eq; exact Hidx).
    erewrite bind_ok by (erewrite getJson_eq by exact Hget; reflexivity).
    cbv zeta. rewrite Hnn, Hexp. cbn [await js_add].
    erewrite bind_throw; [reflexivity|].
    erewrite bind_ok by reflexivity.
    erewrite bind_ok by (apply toISOString_eq; exact Hexpiry).
    erewrite bind_ok by (apply fetch_eq; exact Hfetch).
    assert (Hok : ok res = false) by (unfold ok; lia).
    rewrite Hok. cbn. rewrite <- app_assoc. reflexivity.
  - intros Hstatus payload number Hjson Hnumber.
    destruct (s3_putObject bucket (internal.versionMetadata (project body) (version body))
      (VObj [("upload_time", VStr upload_time); ("index_time", VStr index_iso);
             ("expiry_time", VStr expiry_time); ("expiry_job_id", number)]) w2)
      as [p w3] eqn:Hput.
    exists p, w3. unfold version_metadata.
    erewrite bind_ok by (apply toISOString_eq; exact Hup).
    erewrite bind_ok by (apply toISOString_eq; exact Hidx).
    erewrite bind_ok by (erewrite getJson_eq by exact Hget; reflexivity).
    cbv zeta. rewrite Hnn, Hexp. cbn [await js_add].
    assert (Hok : ok res = true) by (unfold ok; lia).
    erewrite bind_ok.
    2:{ erewrite bind_ok by reflexivity.
        erewrite bind_ok by (apply toISOString_eq; exact Hexpiry).
        erewrite bind_ok by (apply fetch_eq; exact Hfetch).
        rewrite Hok, Hjson. cbn [negb await].
        erewrite bind_ok by reflexivity.
        rewrite Hnumber. reflexivity. }
    erewrite bind_ok by (apply push_putJson_eq; exact Hput).
    cbn. rewrite <- !app_assoc. reflexivity.
Qed.

(** *** Aggregation *)

Lemma listed_app evs1 evs2 : listed (evs1 ++ evs2) = listed evs1 ++ listed evs2.
Proof. apply flat_map_app. Qed.

Lemma fetched_app evs1 evs2 : fetched (evs1 ++ evs2) = fetched evs1 ++ fetched evs2.
Proof. apply flat_map_app. Qed.

Lemma listings_app evs1 evs2 : listings (evs1 ++ evs2) = listings evs1 ++ listings evs2.
Proof. apply flat_map_app. Qed.

Lemma fetched_get b k got evs :
  fetched (EvGetObject b k got :: evs) = (k, settled got) :: fetched evs.
Proof. reflexivity. Qed.

Lemma listed_get b k got evs : listed (EvGetObject b k got :: evs) = listed evs.
Proof. reflexivity. Qed.

Lemma listings_get b k got evs : listings (EvGetObject b k got :: evs) = listings evs.
Proof. reflexivity. Qed.

Lemma puts_get b k got evs : puts (EvGetObject b k got :: evs) = puts evs.
Proof. reflexivity. Qed.

Lemma fetched_list b p t r evs : fetched (EvListObjectsV2 b p t r :: evs) = fetched evs.
Proof. reflexivity. Qed.

Lemma listed_list b p t info evs :
  listed (EvListObjectsV2 b p t (Ok info) :: evs) = Contents info ++ listed evs.
Proof. reflexivity. Qed.

Lemma listings_list b p t r evs :
  listings (EvListObjectsV2 b p t r :: evs) = (b, p, t, r) :: listings evs.
Proof. reflexivity. Qed.

Lemma puts_list b p t r evs : puts (EvListObjectsV2 b p t r :: evs) = puts evs.
Proof. reflexivity. Qed.

(** One page: a fetch for each JSON key of the page, in order, and
    nothing else. *)
Lemma collect_page_spec bucket contents agg (s : St W) r s' :
  collect_page bucket contents agg s = Some (r, s') ->
  exists evs,
    trace s' = trace s ++ evs
    /\ r = Ok (agg ++ map snd (fetched evs))
    /\ map fst (fetched evs) = List.filter is_json contents
    /\ listings evs = [] /\ listed evs = [] /\ puts evs = [].
Proof.
  revert agg s. induction contents as [|key rest IH]; intros agg s; cbn [collect_page].
  - intros [= <- <-]. exists []. cbn. rewrite !app_nil_r. auto 10.
  - cbn [List.filter]. unfold is_json at 1.
    destruct (endsWith key ".json"); [|apply IH].
    destruct (s3_getObject bucket key (world s)) as [got w] eqn:Hget.
    erewrite bind_ok by (apply async_eq, getJson_eq; exact Hget).
    intros E. apply IH in E as (evs & T & -> & K & L1 & L2 & P).
    exists (EvGetObject bucket key got :: evs).
    cbn [trace] in T. rewrite <- app_assoc in T.
    rewrite fetched_get, listed_get, listings_get, puts_get.
    cbn [map fst snd]. rewrite K, <- app_assoc.
    destruct got; auto 10.
Qed.

(** The loop: a paginated listing, and a fetch for each JSON key of
    each page. *)
Lemma listing_loop_spec fuel bucket prefix token agg (s : St W) agg' s' :
  listing_loop fuel bucket prefix token agg s = Some (Ok agg', s') ->
  exists evs,
    trace s' = trace s ++ evs
    /\ paginated bucket prefix token (listings evs)
    /\ agg' = agg ++ map snd (fetched evs)
    /\ map fst (fetched evs) = List.filter is_json (listed evs)
    /\ puts evs = [].
Proof.
  revert token agg s. induction fuel as [|fuel IH]; intros token agg s;
    cbn [listing_loop]; [discriminate|].
  destruct (s3_listObjectsV2 bucket prefix token (world s)) as [[info|e] w] eqn:Hlist.
  2:{ erewrite bind_ok by (apply call_eq; exact Hlist). discriminate. }
  erewrite bind_ok by (apply call_eq; exact Hlist).
  erewrite bind_ok by reflexivity.
  intros E. apply bind_inv in E as [(agg1 & s1 & E1 & E2)|(e & _ & [=])].
  apply collect_page_spec in E1 as (evs1 & T1 & [= ->] & K1 & L1 & L2 & P1).
  cbn [trace] in T1. rewrite <- app_assoc in T1.
  destruct (IsTruncated info) eqn:Htrunc.
  - apply IH in E2 as (evs2 & T2 & Pg & -> & K2 & P2).
    exists (EvListObjectsV2 bucket prefix token (Ok info) :: evs1 ++ evs2).
    rewrite T2, T1, <- app_assoc.
    rewrite listings_list, fetched_list, listed_list, puts_list.
    rewrite !listings_app, !fetched_app, !listed_app, !puts_app, L1, L2, P1, P2.
    cbn [app paginated]. rewrite List.filter_app, !map_app, K1, K2, <- app_assoc.
    repeat split; auto.
    exists info. rewrite Htrunc. auto.
  - injection E2 as <- <-.
    exists (EvListObjectsV2 bucket prefix token (Ok info) :: evs1).
    rewrite listings_list, fetched_list, listed_list, puts_list, L1, L2, P1, K1, app_nil_r.
    cbn [paginated].
    repeat split; auto.
    exists info. rewrite Htrunc. auto.
Qed.

Lemma listing_loop_S fuel bucket prefix token agg :
  listing_loop (W:=W) (S fuel) bucket prefix token agg
  = (r <- call (s3_listObjectsV2 bucket prefix token)
            (EvListObjectsV2 bucket prefix token) ;;
     info <- await r ;;
     agg' <- collect_page bucket (Contents info) agg ;;
     if IsTruncated info
     then listing_loop fuel bucket prefix (NextContinuationToken info) agg'
     else ret agg').
Proof. reflexivity. Qed.

(** More fuel does not change a result. *)
Lemma listing_loop_fuel fuel bucket prefix token agg (s : St W) x :
  listing_loop fuel bucket prefix token agg s = Some x ->
  listing_loop (S fuel) bucket prefix token agg s = Some x.
Proof.
  revert token agg s. induction fuel as [|fuel IH]; intros token agg s; [discriminate|].
  intros E. rewrite listing_loop_S in E |- *. unfold bind in E |- *.
  destruct (call _ _ s) as [[[r|e] s1]|]; auto.
  destruct (await r s1) as [[[info|e] s2]|]; auto.
  destruct (collect_page _ _ _ s2) as [[[agg1|e] s3]|]; auto.
  destruct (IsTruncated info); auto.
Qed.

(** Enough fuel: a result does not depend on the fuel that gave it. *)
Lemma aggregation_fuel fuel fuel' bucket body (s : St W) x :
  (fuel <= fuel')%nat ->
  aggregation fuel bucket body s = Some x ->
  aggregation fuel' bucket body s = Some x.
Proof.
  induction 1 as [|fuel' _ IH]; [auto|].
  intros E. specialize (IH E). revert IH. unfold aggregation, bind.
  destruct (listing_loop fuel' _ _ _ _ s) as [y|] eqn:El; [|discriminate].
  apply listing_loop_fuel in El. rewrite El. auto.
Qed.

(** The events of the fetches of a page. *)
Lemma collect_page_fetches bucket contents agg (s : St W) gets w2 :
  page_fetches bucket contents (world s) = (gets, w2) ->
  exists evs,
    collect_page bucket contents agg s
      = Some (Ok (agg ++ map (fun g => settled (snd g)) gets),
              mkSt w2 (trace s ++ evs) (writes s) (exitCode s))
    /\ fetched evs = map (fun g => (fst g, settled (snd g))) gets
    /\ listed evs = [] /\ listings evs = [] /\ puts evs = [].
Proof.
  revert agg s gets w2.
  induction contents as [|key rest IH]; intros agg s gets w2;
    cbn [collect_page page_fetches].
  - intros [= <- <-]. exists []. cbn. rewrite !app_nil_r. destruct s; auto.
  - unfold is_json at 1. destruct (endsWith key ".json").
    + destruct (s3_getObject bucket key (world s)) as [got w1] eqn:Hget.
      destruct (page_fetches bucket rest w1) as [gets' w2'] eqn:Hrest.
      intros [= <- <-].
      erewrite bind_ok by (apply async_eq, getJson_eq; exact Hget).
      destruct (IH (agg ++ [settled got])
                  (mkSt w1 (trace s ++ [EvGetObject bucket key got]) (writes s)
                     (exitCode s)) gets' w2' Hrest)
        as (evs & E & F & L1 & L2 & P).
      exists (EvGetObject bucket key got :: evs).
      rewrite fetched_get, listed_get, listings_get, puts_get, F.
      split; [|auto]. 
      replace (match got with Found content => Ok content | Missing => Ok VNull
                        | Failed e => Throw e end) with (settled got) by reflexivity.
      rewrite E. cbn. rewrite <- !app_assoc. reflexivity.
    + apply IH.
Qed.

Lemma page_fetches_keys bucket contents (w : W) gets w2 :
  page_fetches bucket contents w = (gets, w2) ->
  map fst gets = List.filter is_json contents.
Proof.
  revert w gets w2. induction contents as [|key rest IH]; intros w gets w2;
    cbn [page_fetches List.filter].
  - intros [= <- _]. reflexivity.
  - destruct (is_json key); [|apply IH].
    destruct (s3_getObject bucket key w) as [got w1].
    destruct (page_fetches bucket rest w1) as [gets' w2'] eqn:Hrest.
    intros [= <- _]. cbn. f_equal. eapply IH; eauto.
Qed.

Lemma listing_of_keys bucket prefix token (w : W) pages gets w' :
  listing_of bucket prefix token w pages gets w' ->
  map fst gets = List.filter is_json (concat (map Contents pages)).
Proof.
  induction 1 as [token w info w1 gets w2 Hlist Htrunc Hpage
                 |token w info w1 gets1 w2 pages gets2 w3 Hlist Htrunc Hpage _ IH].
  - cbn. rewrite app_nil_r. eapply page_fetches_keys; eauto.
  - cbn. rewrite map_app, List.filter_app, IH. f_equal.
    eapply page_fetches_keys; eauto.
Qed.

(** Enough fuel: the loop ends after as many rounds as the listing has
    pages. *)
Lemma listing_loop_total bucket prefix token (w : W) pages gets w' :
  listing_of bucket prefix token w pages gets w' ->
  forall fuel agg (s : St W),
    world s = w -> (List.length pages <= fuel)%nat ->
    exists evs,
      listing_loop fuel bucket prefix token agg s
        = Some (Ok (agg ++ map (fun g => settled (snd g)) gets),
                mkSt w' (trace s ++ evs) (writes s) (exitCode s))
      /\ listed evs = concat (map Contents pages)
      /\ fetched evs = map (fun g => (fst g, settled (snd g))) gets
      /\ paginated bucket prefix token (listings evs)
      /\ puts evs = [].
Proof.
  induction 1 as [token w info w1 gets w2 Hlist Htrunc Hpage
                 |token w info w1 gets1 w2 pages gets2 w3 Hlist Htrunc Hpage _ IH];
    intros [|fuel] agg s Hw Hfuel; cbn in Hfuel; try lia; subst w;
    rewrite listing_loop_S;
    erewrite bind_ok by (apply call_eq; exact Hlist);
    erewrite bind_ok by reflexivity.
  - destruct (collect_page_fetches bucket (Contents info) agg
                (mkSt w1 (trace s ++ [EvListObjectsV2 bucket prefix token (Ok info)])
                   (writes s) (exitCode s)) gets w2 Hpage)
      as (evs & E & F & L1 & L2 & P).
    cbn [trace writes exitCode] in E.
    erewrite bind_ok by exact E. rewrite Htrunc.
    exists (EvListObjectsV2 bucket prefix token (Ok info) :: evs).
    rewrite listed_list, fetched_list, listings_list, puts_list, L1, L2, F, P.
    cbn [trace paginated concat map]. rewrite <- !app_assoc, !app_nil_r.
    repeat split; auto. exists info. rewrite Htrunc. auto.
  - destruct (collect_page_fetches bucket (Contents info) agg
                (mkSt w1 (trace s ++ [EvListObjectsV2 bucket prefix token (Ok info)])
                   (writes s) (exitCode s)) gets1 w2 Hpage)
      as (evs1 & E & F & L1 & L2 & P).
    cbn [trace writes exitCode] in E.
    erewrite bind_ok by exact E. rewrite Htrunc.
    destruct (IH fuel (agg ++ map (fun g => settled (snd g)) gets1)
                (mkSt w2 ((trace s ++ [EvListObjectsV2 bucket prefix token (Ok info)])
                            ++ evs1) (writes s) (exitCode s)) eq_refl ltac:(lia))
      as (evs2 & E2 & Ld & Fd & Pg & Pd).
    cbn [trace writes exitCode] in E2.
    exists (EvListObjectsV2 bucket prefix token (Ok info) :: evs1 ++ evs2).
    rewrite listed_list, fetched_list, listings_list, puts_list.
    rewrite !listed_app, !fetched_app, !listings_app, !puts_app, L1, L2, F, P, Ld, Fd, Pd.
    rewrite E2. cbn [trace writes exitCode paginated concat map app].
    rewrite !map_app, <- !app_assoc.
    repeat split; auto. exists info. rewrite Htrunc. auto.
Qed.

Lemma Promise_all_resolved (gets : list (string * Fetched)) :
  Forall (fun g => resolves (snd g)) gets ->
  Promise_all (map (fun g => settled (snd g)) gets)
    = Ok (map (fun g => fetched_value (snd g)) gets).
Proof.
  induction 1 as [|[key got] gets R _ IH]; [reflexivity|].
  cbn [map snd]. cbn [Promise_all]. rewrite IH.
  destruct got; [reflexivity|reflexivity|destruct R].
Qed.

Lemma Promise_all_resolves (gets : list (string * Fetched)) l :
  Promise_all (map (fun g => settled (snd g)) gets) = Ok l ->
  Forall (fun g => resolves (snd g)) gets.
Proof.
  revert l. induction gets as [|[key got] gets IH]; intros l; [constructor|].
  cbn [map snd Promise_all].
  destruct got as [content| |e]; cbn [settled]; try discriminate;
    (destruct (Promise_all _) as [l0|]; [|discriminate]);
    intros _; constructor; cbn; eauto.
Qed.

(** A loop that returns has followed a listing, within its fuel. *)
Lemma listing_loop_listing fuel bucket prefix token agg (s : St W) agg' s' :
  listing_loop fuel bucket prefix token agg s = Some (Ok agg', s') ->
  exists pages gets,
    listing_of bucket prefix token (world s) pages gets (world s')
    /\ agg' = agg ++ map (fun g => settled (snd g)) gets
    /\ (List.length pages <= fuel)%nat.
Proof.
  revert token agg s. induction fuel as [|fuel IH]; intros token agg s;
    [discriminate|].
  rewrite listing_loop_S.
  destruct (s3_listObjectsV2 bucket prefix token (world s)) as [[info|e] w1] eqn:Hlist;
    erewrite bind_ok by (apply call_eq; exact Hlist); [|discriminate].
  erewrite bind_ok by reflexivity.
  destruct (page_fetches bucket (Contents info) w1) as [gets w2] eqn:Hpage.
  destruct (collect_page_fetches bucket (Contents info) agg
              (mkSt w1 (trace s ++ [EvListObjectsV2 bucket prefix token (Ok info)])
                 (writes s) (exitCode s)) gets w2 Hpage) as (evs & E & _).
  erewrite bind_ok by exact E.
  destruct (IsTruncated info) eqn:Htrunc.
  - intros Hloop. apply IH in Hloop as (pages & gets2 & L & -> & Hfuel).
    exists (info :: pages), (gets ++ gets2).
    split; [eapply listing_more; eauto|].
    split; [rewrite map_app, app_assoc; reflexivity|cbn; lia].
  - intros [= <- <-]. exists [info], gets.
    split; [eapply listing_last; eauto|]. split; [reflexivity|cbn; lia].
Qed.

(** The block completes only when the listing ends within the fuel and
    every fetch resolves. *)
Lemma aggregation_listing fuel bucket body (s s' : St W) :
  aggregation fuel bucket body s = Some (Ok tt, s') ->
  exists pages gets w1,
    listing_of bucket (project body ++ "/" ++ version body ++ "/")%string None (world s)
      pages gets w1
    /\ Forall (fun g => resolves (snd g)) gets
    /\ (List.length pages <= fuel)%nat.
Proof.
  unfold aggregation. intros E.
  apply bind_inv in E as [(agg & s1 & E1 & E2)|(e & _ & [=])].
  apply listing_loop_listing in E1 as (pages & gets & L & -> & Hfuel).
  exists pages, gets, (world s1). split; [exact L|]. split; [|exact Hfuel].
  cbn [app] in E2.
  destruct (Promise_all (map (fun g => settled (snd g)) gets)) as [l|e] eqn:Hall.
  - eapply Promise_all_resolves; eauto.
  - cbn in E2. discriminate.
Qed.

(** C4. Let the storage list the prefix [project/version/] in the pages
    [pages], each truncated page continued with its continuation token up
    to the first page that is not truncated, and let [gets] be its
    answers to the fetches of the keys of these pages.  The keys fetched
    are exactly the listed keys that end with [.json], in the order of
    the listing.  With fuel for as many rounds as there are pages, the
    aggregation block completes when every fetch resolves and no write
    still pending is rejected.  Whenever it completes, every fetch has
    resolved, the listing calls made are those of the pagination, and the
    blob written at the aggregated path is the array of the contents
    fetched, one for each listed JSON key and in that order. *)
Theorem aggregation_collects_json_objects
    (fuel : nat) (bucket : string) (body : Body) (s : St W)
    (pages : list Listing) (gets : list (string * Fetched)) (w1 : W) :
  listing_of bucket (project body ++ "/" ++ version body ++ "/")%string None (world s)
    pages gets w1 ->
  (List.length pages <= fuel)%nat ->
  map fst gets = List.filter is_json (concat (map Contents pages))
  /\ (Forall (fun g => resolves (snd g)) gets ->
      Forall (fun p => p = Ok tt) (writes s) ->
      exists s', aggregation fuel bucket body s = Some (Ok tt, s'))
  /\ (forall s',
        aggregation fuel bucket body s = Some (Ok tt, s') ->
        Forall (fun g => resolves (snd g)) gets
        /\ exists evs p,
            trace s' = trace s ++ evs
              ++ [EvPutObject bucket
                    (internal.aggregated (project body) (version body))
                    (VArr (map (fun g => fetched_value (snd g)) gets)) p]
            /\ writes s' = writes s ++ [p]
            /\ paginated bucket (project body ++ "/" ++ version body ++ "/")%string
                 None (listings evs)
            /\ listed evs = concat (map Contents pages)
            /\ fetched evs = map (fun g => (fst g, settled (snd g))) gets
            /\ puts evs = []).
Proof.
  intros Hlisting Hfuel.
  split; [eapply listing_of_keys; eauto|].
  destruct (listing_loop_total _ _ _ _ _ _ _ Hlisting fuel [] s eq_refl Hfuel)
    as (evs & E & Ld & Fd & Pg & Pd).
  destruct (s3_putObject bucket (internal.aggregated (project body) (version body))
              (VArr (map (fun g => fetched_value (snd g)) gets)) w1) as [p w2] eqn:Hput.
  assert (Hrun : Forall (fun g => resolves (snd g)) gets ->
            aggregation fuel bucket body s
            = Some (Ok tt,
                    mkSt w2
                      (trace s ++ evs
                         ++ [EvPutObject bucket
                               (internal.aggregated (project body) (version body))
                               (VArr (map (fun g => fetched_value (snd g)) gets)) p])
                      (writes s ++ [p]) (exitCode s))).
  { intros Hresolve. unfold aggregation. erewrite bind_ok by exact E.
    cbn [app]. rewrite (Promise_all_resolved _ Hresolve).
    erewrite bind_ok by reflexivity.
    erewrite push_putJson_eq by exact Hput.
    cbn. rewrite <- !app_assoc. reflexivity. }
  split.
  - intros Hresolve _. eexists. exact (Hrun Hresolve).
  - intros s' Hagg.
    assert (Hresolve : Forall (fun g => resolves (snd g)) gets).
    { revert Hagg. unfold aggregation. erewrite bind_ok by exact E. cbn [app].
      destruct (Promise_all (map (fun g => settled (snd g)) gets)) as [l|e] eqn:Hall.
      - intros _. eapply Promise_all_resolves; eauto.
      - discriminate. }
    split; [exact Hresolve|].
    rewrite (Hrun Hresolve) in Hagg. injection Hagg as <-.
    exists evs, p. cbn [trace writes]. repeat split; auto.
Qed.

(** The body of the [try] when the head request on the lock fails. *)
Lemma core_lock_absent fuel bucket repo issue token path body e (s : St W) w1 w2 :
  fs_readParams path (world s) = (Ok body, w1) ->
  s3_headObject bucket (internal.lock (project body) (version body)) w1 = (Throw e, w2) ->
  core fuel bucket repo issue token path s
    = Some (Throw lock_error,
            mkSt w2
              (trace s ++ [EvReadFile path (Ok body);
                           EvHeadObject bucket
                             (internal.lock (project body) (version body)) (Throw e)])
              [] (exitCode s)).
Proof.
  intros Hread Hhead. unfold core.
  erewrite bind_ok by (apply call_eq; exact Hread).
  erewrite bind_ok by reflexivity.
  erewrite bind_ok by reflexivity.
  erewrite bind_throw; [reflexivity|].
  unfold prepare. erewrite bind_throw; [reflexivity|].
  unfold lock_check. erewrite try_catch_throw by (apply headObject_eq; exact Hhead).
  cbn. rewrite <- app_assoc. reflexivity.
Qed.

(** C1. When the head request on the lock object fails, the body of the
    [try] throws the lock-acquisition error, and the whole run makes
    four calls: it reads the parameters, asks for the lock, logs the
    error and posts it as a comment.  No object is put (no version
    metadata, aggregated blob, permissions or latest pointer) and
    nothing is deleted (the lock stays).  This holds for any fuel. *)
Theorem lock_absent_no_writes
    (fuel : nat) (penv : ProcessEnv) (argv : list string)
    (token bucket repo issue path : string) (body : Body) (e : Exn)
    (s : St W) (w1 w2 : W) :
  setup penv argv = Ok (token, (bucket, repo, issue, path)) ->
  fs_readParams path (world s) = (Ok body, w1) ->
  s3_headObject bucket (internal.lock (project body) (version body)) w1 = (Throw e, w2) ->
  (exists s1, core fuel bucket repo issue token path s = Some (Throw lock_error, s1))
  /\ exists r s' c,
      let evs := [EvReadFile path (Ok body);
                  EvHeadObject bucket (internal.lock (project body) (version body))
                    (Throw e);
                  EvConsoleError lock_error;
                  EvFetch (comment_request repo issue token lock_error) c] in
      main fuel penv argv s = Some (r, s')
      /\ trace s' = trace s ++ evs
      /\ puts evs = []
      /\ deletes evs = [].
Proof.
  intros Hsetup Hread Hhead.
  split; [eexists; eapply core_lock_absent; eassumption|].
  destruct (http_fetch (comment_request repo issue token lock_error) w2) as [c w3] eqn:Hc.
  unfold main.
  erewrite bind_ok by reflexivity.
  rewrite Hsetup.
  erewrite bind_ok by reflexivity.
  destruct c as [res|e'].
  - eexists _, _, (Ok res). split.
    + erewrite bind_ok; [reflexivity|].
      erewrite try_catch_throw by (eapply core_lock_absent; eassumption).
      erewrite report_eq by exact Hc. reflexivity.
    + cbn. rewrite <- !app_assoc. auto.
  - eexists _, _, (Throw e'). split.
    + erewrite bind_throw; [reflexivity|].
      erewrite try_catch_throw by (eapply core_lock_absent; eassumption).
      erewrite report_eq by exact Hc. reflexivity.
    + cbn. rewrite <- !app_assoc. auto.
Qed.

(** *** The shape of a run *)

Lemma steps_prepare fuel bucket repo token body lockpath :
  steps quiet (prepare (W:=W) fuel bucket repo token body lockpath).
Proof.
  unfold prepare. pose proof steps_update_latest. quiet_block.
Qed.

Lemma Promise_all_ok (ws : list (Res unit)) l :
  Promise_all ws = Ok l -> Forall (fun p => p = Ok tt) ws.
Proof.
  revert l. induction ws as [|[[]|e] ws IH]; intros l; cbn; [constructor| |discriminate].
  destruct (Promise_all ws) as [l0|]; [|discriminate].
  intros _. constructor; eauto.
Qed.

Lemma await_writes_inv (s : St W) r s' :
  await_writes s = Some (r, s') ->
  s' = s /\ (r = Ok tt -> Forall (fun p => p = Ok tt) (writes s)).
Proof.
  unfold await_writes. erewrite bind_ok by reflexivity.
  destruct (Promise_all (writes s)) as [l|e] eqn:Hall; cbn.
  - intros [= <- <-]. split; [reflexivity|]. intros _. eapply Promise_all_ok; eauto.
  - intros [= <- <-]. split; [reflexivity|discriminate].
Qed.

(** The body of the [try] leaves the exit code alone, and its calls
    have one of the three shapes of [core_run]. *)
Lemma core_inv fuel bucket repo issue token path (s : St W) r s' :
  core fuel bucket repo issue token path s = Some (r, s') ->
  exitCode s' = exitCode s
  /\ exists evs, trace s' = trace s ++ evs
       /\ core_run bucket repo issue token path r evs (writes s').
Proof.
  unfold core. intros E.
  destruct (fs_readParams path (world s)) as [rd w0] eqn:Hread.
  erewrite bind_ok in E by (apply call_eq; exact Hread).
  destruct rd as [body|e].
  2:{ cbn in E. injection E as <- <-. split; [reflexivity|].
      exists [EvReadFile path (Throw e)]. split; [reflexivity|].
      apply run_aborted. repeat constructor. }
  erewrite bind_ok in E by reflexivity.
  erewrite bind_ok in E by reflexivity. cbv zeta in E.
  apply bind_inv in E as [([] & s1 & E1 & E2)|(e & E1 & ->)];
    apply steps_prepare in E1 as (pre & T1 & F1 & W1 & X1);
    cbn [trace writes exitCode app] in T1, W1, X1.
  2:{ split; [exact X1|]. exists (EvReadFile path (Ok body) :: pre).
      rewrite T1, <- app_assoc. split; [reflexivity|].
      apply run_aborted. constructor; [exact I|exact F1]. }
  unfold commit in E2.
  apply bind_inv in E2 as [([] & s2 & E2 & E3)|(e & E2 & ->)];
    apply await_writes_inv in E2 as [-> Hw].
  2:{ split; [exact X1|]. exists (EvReadFile path (Ok body) :: pre).
      rewrite T1, <- app_assoc. split; [reflexivity|].
      apply run_aborted. constructor; [exact I|exact F1]. }
  specialize (Hw eq_refl). rewrite W1 in Hw.
  apply bind_inv in E3 as [([] & s3 & E3 & E4)|(e & E3 & ->)];
    apply call_await_inv in E3 as (w3 & Hdel & ->).
  2:{ split; [exact X1|].
      exists (EvReadFile path (Ok body) :: pre
                ++ [EvDeleteObject bucket (internal.lock (project body) (version body))
                      (Throw e)]).
      cbn [trace writes]. rewrite T1, W1, <- !app_assoc. split; [reflexivity|].
      apply run_unlock_failed; assumption. }
  apply call_await_inv in E4 as (w4 & Hclose & ->).
  split; [exact X1|].
  exists (EvReadFile path (Ok body) :: pre
            ++ [EvDeleteObject bucket (internal.lock (project body) (version body)) (Ok tt);
                EvCloseIssue repo issue token r]).
  cbn [trace writes]. rewrite T1, W1, <- !app_assoc. split; [reflexivity|].
  apply run_unlocked; assumption.
Qed.

Lemma quiet_deleted evs : Forall quiet evs -> deleted evs = [].
Proof.
  induction 1 as [|ev evs Q _ IH]; [reflexivity|].
  destruct ev; try destruct Q; exact IH.
Qed.

(** The module after the checks of the set-up: the [try], the [catch]
    and the last line. *)
Lemma main_after_core fuel penv argv token bucket repo issue path (s : St W) rc s1 :
  setup penv argv = Ok (token, (bucket, repo, issue, path)) ->
  core fuel bucket repo issue token path (mkSt (world s) (trace s) (writes s) 1)
    = Some (rc, s1) ->
  main fuel penv argv s
    = Some (match rc with
            | Ok _ => (Ok tt, mkSt (world s1) (trace s1) (writes s1) 0)
            | Throw e =>
                let '(c, w) :=
                  http_fetch (comment_request repo issue token e) (world s1) in
                (match c with Ok _ => Ok tt | Throw e' => Throw e' end,
                 mkSt w
                   (trace s1 ++ [EvConsoleError e;
                                 EvFetch (comment_request repo issue token e) c])
                   (writes s1)
                   (match c with Ok _ => 0 | Throw _ => 1 end))
            end).
Proof.
  intros Hsetup Hcore. unfold main.
  erewrite bind_ok by reflexivity. rewrite Hsetup.
  erewrite bind_ok by reflexivity. cbv beta iota.
  destruct rc as [[]|e].
  - erewrite bind_ok by (apply try_catch_ok; exact Hcore). reflexivity.
  - apply core_inv in Hcore as Hinv. destruct Hinv as [Hexit _]. cbn in Hexit.
    destruct (http_fetch (comment_request repo issue token e) (world s1))
      as [[res|e'] w] eqn:Hc.
    + erewrite bind_ok
        by (erewrite try_catch_throw by exact Hcore;
            erewrite report_eq by exact Hc; reflexivity).
      reflexivity.
    + erewrite bind_throw
        by (erewrite try_catch_throw by exact Hcore;
            erewrite report_eq by exact Hc; reflexivity).
      rewrite Hexit. reflexivity.
Qed.

(** A failed check of the set-up is thrown out of the module. *)
Lemma main_setup_error fuel penv argv (s : St W) e :
  setup penv argv = Throw e ->
  main fuel penv argv s = Some (Throw e, mkSt (world s) (trace s) (writes s) 1).
Proof.
  intros Hsetup. unfold main.
  erewrite bind_ok by reflexivity. rewrite Hsetup. reflexivity.
Qed.

(** The ways the module ends. *)
Lemma main_cases fuel penv argv (s : St W) r s' :
  main fuel penv argv s = Some (r, s') ->
  (exists e, setup penv argv = Throw e /\ r = Throw e /\ exitCode s' = 1)
  \/ (exists token bucket repo issue path rc s1,
        setup penv argv = Ok (token, (bucket, repo, issue, path))
        /\ core fuel bucket repo issue token path (mkSt (world s) (trace s) (writes s) 1)
             = Some (rc, s1)
        /\ match rc with
           | Ok _ => r = Ok tt /\ exitCode s' = 0
           | Throw e =>
               match fst (http_fetch (comment_request repo issue token e) (world s1)) with
               | Ok _ => r = Ok tt /\ exitCode s' = 0
               | Throw e' => r = Throw e' /\ exitCode s' = 1
               end
           end).
Proof.
  intros E.
  destruct (setup penv argv) as [[token [[[bucket repo] issue] path]]|e] eqn:Hsetup.
  - right. exists token, bucket, repo, issue, path.
    destruct (core fuel bucket repo issue token path
                (mkSt (world s) (trace s) (writes s) 1)) as [[rc s1]|] eqn:Hcore.
    + exists rc, s1. split; [reflexivity|]. split; [reflexivity|].
      rewrite (main_after_core _ _ _ _ _ _ _ _ _ _ _ Hsetup Hcore) in E.
      destruct rc as [[]|e].
      * injection E as <- <-. auto.
      * destruct (http_fetch _ _) as [[res|e'] w];
          injection E as <- <-; cbn [fst]; auto.
    + exfalso. revert E. unfold main.
      erewrite bind_ok by reflexivity. rewrite Hsetup.
      erewrite bind_ok by reflexivity. cbv beta iota.
      unfold bind, try_catch. rewrite Hcore. discriminate.
  - left. exists e. rewrite (main_setup_error _ _ _ _ _ Hsetup) in E.
    injection E as <- <-. auto.
Qed.

(** *** Failure, commit and exit code *)

(** C5, as the code has it.  Take a run in which a step of the body of
    the [try] throws, and in which no write and no fetch is rejected
    while the body still makes calls.  The steps after the one that
    throws are skipped: the run only logs the exception and posts its
    message as a comment on the ticket.  The lock has not been deleted,
    unless the step that throws is the closing of the ticket, the one
    step after the deletion of the lock. *)
Theorem failed_run_reports_and_keeps_lock_until_close
    (fuel : nat) (penv : ProcessEnv) (argv : list string)
    (token bucket repo issue path : string) (s s1 : St W) (e : Exn)
    (evs : list Event) :
  setup penv argv = Ok (token, (bucket, repo, issue, path)) ->
  core fuel bucket repo issue token path (mkSt (world s) (trace s) (writes s) 1)
    = Some (Throw e, s1) ->
  trace s1 = trace s ++ evs ->
  handled_in_time evs = true ->
  exists r s' c,
    main fuel penv argv s = Some (r, s')
    /\ trace s' = trace s1
         ++ [EvConsoleError e; EvFetch (comment_request repo issue token e) c]
    /\ (deleted evs = []
        \/ exists body pre,
             deleted pre = []
             /\ evs = EvReadFile path (Ok body) :: pre
                 ++ [EvDeleteObject bucket
                       (internal.lock (project body) (version body)) (Ok tt);
                     EvCloseIssue repo issue token (Throw e)]).
Proof.
  intros Hsetup Hcore Htrace _.
  rewrite (main_after_core _ _ _ _ _ _ _ _ _ _ _ Hsetup Hcore).
  destruct (http_fetch (comment_request repo issue token e) (world s1)) as [c w].
  apply core_inv in Hcore as (_ & evs0 & T & Run). cbn [trace] in T.
  rewrite T in Htrace. apply app_inv_head in Htrace as <-.
  eexists _, _, c. split; [reflexivity|]. split; [reflexivity|].
  inversion Run as [e0 evs1 ws Q|body pre e0 Q Hw|body pre r0 Q Hw]; subst.
  - left. apply quiet_deleted; assumption.
  - left. change (deleted (EvReadFile path (Ok body) :: ?l)) with (deleted l).
    unfold deleted. rewrite flat_map_app. fold (deleted pre).
    rewrite (quiet_deleted _ Q). reflexivity.
  - right. exists body, pre. split; [apply quiet_deleted; assumption|reflexivity].
Qed.


(** C9, as the code has it.  Take a run that ends, in which no write
    and no fetch is rejected while the body of the [try] still makes
    calls.  Its exit code is 0 or 1.  It is 0 when the [try] completes,
    and when a step fails and the POST of the comment returns.  It is 1,
    with an exception thrown out of the module, when a check of the
    set-up fails, and also when a step fails and the POST of the comment
    itself throws. *)
Theorem exit_code_convention
    (fuel : nat) (penv : ProcessEnv) (argv : list string) (s : St W)
    (r : Res unit) (s' : St W) (evs : list Event) :
  main fuel penv argv s = Some (r, s') ->
  trace s' = trace s ++ evs ->
  handled_in_time evs = true ->
  (exitCode s' = 0 /\ r = Ok tt
   /\ exists token bucket repo issue path rc s1,
       setup penv argv = Ok (token, (bucket, repo, issue, path))
       /\ core fuel bucket repo issue token path (mkSt (world s) (trace s) (writes s) 1)
            = Some (rc, s1)
       /\ (rc = Ok tt
           \/ exists e res w,
                rc = Throw e
                /\ http_fetch (comment_request repo issue token e) (world s1)
                     = (Ok res, w)))
  \/ (exitCode s' = 1
      /\ exists e', r = Throw e'
         /\ (setup penv argv = Throw e'
             \/ exists token bucket repo issue path e s1 w,
                  setup penv argv = Ok (token, (bucket, repo, issue, path))
                  /\ core fuel bucket repo issue token path
                       (mkSt (world s) (trace s) (writes s) 1) = Some (Throw e, s1)
                  /\ http_fetch (comment_request repo issue token e) (world s1)
                       = (Throw e', w))).
Proof.
  intros E _ _.
  apply main_cases in E
    as [(e & Hsetup & -> & Hexit)
       |(token & bucket & repo & issue & path & rc & s1 & Hsetup & Hcore & Hend)].
  - right. split; [exact Hexit|]. exists e. auto.
  - destruct rc as [[]|e].
    + destruct Hend as [-> Hexit]. left. repeat split; auto.
      exists token, bucket, repo, issue, path, (Ok tt), s1. auto.
    + destruct (http_fetch (comment_request repo issue token e) (world s1))
        as [[res|e'] w] eqn:Hc; cbn [fst] in Hend; destruct Hend as [-> Hexit].
      * left. repeat split; auto.
        exists token, bucket, repo, issue, path, (Throw e), s1.
        split; [assumption|]. split; [assumption|]. right. eauto.
      * right. split; [exact Hexit|]. exists e'. split; [reflexivity|].
        right. exists token, bucket, repo, issue, path, e, s1, w. auto.
Qed.

(** C10. When a step fails and the POST of the comment throws, the
    exception of the POST is thrown out of the module: the last line is
    not reached and the exit code is the 1 of the first line.  In any
    run that ends, the exit code is 0 exactly when no exception is
    thrown out of the module. *)
Theorem comment_failure_keeps_exit_code
    (fuel : nat) (penv : ProcessEnv) (argv : list string)
    (token bucket repo issue path : string) (s s1 : St W) (e e' : Exn) (w : W) :
  setup penv argv = Ok (token, (bucket, repo, issue, path)) ->
  core fuel bucket repo issue token path (mkSt (world s) (trace s) (writes s) 1)
    = Some (Throw e, s1) ->
  http_fetch (comment_request repo issue token e) (world s1) = (Throw e', w) ->
  main fuel penv argv s
    = Some (Throw e',
            mkSt w
              (trace s1 ++ [EvConsoleError e;
                            EvFetch (comment_request repo issue token e) (Throw e')])
              (writes s1) 1)
  /\ forall fuel0 penv0 argv0 (s0 : St W) r0 s0',
      main fuel0 penv0 argv0 s0 = Some (r0, s0') ->
      (exitCode s0' = 0 <-> r0 = Ok tt) /\ (exitCode s0' = 1 <-> r0 <> Ok tt).
Proof.
  intros Hsetup Hcore Hc. split.
  - rewrite (main_after_core _ _ _ _ _ _ _ _ _ _ _ Hsetup Hcore), Hc. reflexivity.
  - intros fuel0 penv0 argv0 s0 r0 s0' E.
    apply main_cases in E
      as [(e0 & _ & -> & Hexit)|(? & ? & ? & ? & ? & rc & s2 & _ & _ & Hend)].
    + rewrite Hexit. repeat split; try discriminate; auto.
    + assert (Hcases : (r0 = Ok tt /\ exitCode s0' = 0)
                       \/ (exists e0, r0 = Throw e0 /\ exitCode s0' = 1)).
      { destruct rc as [[]|e0]; [auto|].
        destruct (fst _) as [res|e1]; [auto|right; eauto]. }
      destruct Hcases as [[-> ->]|(e0 & -> & ->)];
        repeat split; try discriminate; auto; intros N; contradiction.
Qed.

End Properties.

(** * Scenarios

    Runs in the reference environment. *)

Section Scenarios.
Import Sim.

(** The first end-to-end scenario of spec section 8: both JSON objects
    are aggregated, the two pointers and the permissions are written,
    the lock is deleted and the ticket is closed without a comment. *)
Example scenario_first_version :
  option_map (fun '(r, s') => (r, puts (trace s'), deleted (trace s'), exitCode s'))
    (main 5 penv argv (init world1))
  = Some (Ok tt,
          [("bucket", "p/v1/..revision.json",
            VObj [("upload_time", VStr "T1000"); ("index_time", VStr "T5000")]);
           ("bucket", "p/v1/..aggregated.json",
            VArr [VObj [("a", VNum 1)]; VObj [("b", VNum 2)]]);
           ("bucket", "p/..permissions.json", VObj [("owners", VArr [VStr "me"])]);
           ("bucket", "p/..latest.json", utils.formatLatest "v1" 5000);
           ("bucket", "p/..latest_all.json", utils.formatLatest "v1" 5000)],
          [("bucket", "p/v1/..LOCK")], 0).
Proof. vm_compute. reflexivity. Qed.

Lemma lock_absent_no_writes_witness :
  setup penv argv = Ok cfg
  /\ fs_readParams "params.json" world_nolock = (Ok body1, world_nolock)
  /\ s3_headObject "bucket" "p/v1/..LOCK" world_nolock = (Throw NotFound, world_nolock)
  /\ exists r s',
      main 0 penv argv (init world_nolock) = Some (r, s')
      /\ puts (trace s') = [] /\ deletes (trace s') = [].
Proof.
  assert (Hsetup : setup penv argv = Ok cfg) by reflexivity.
  assert (Hread : fs_readParams "params.json" world_nolock = (Ok body1, world_nolock))
    by reflexivity.
  assert (Hhead : s3_headObject "bucket" "p/v1/..LOCK" world_nolock
                  = (Throw NotFound, world_nolock)) by reflexivity.
  split; [exact Hsetup|]. split; [exact Hread|]. split; [exact Hhead|].
  destruct (lock_absent_no_writes (Henv:=env) (Hrt:=runtime) (Hpaths:=layout) 0 penv argv
              "bot-token" "bucket" "owner/repo" "7" "params.json" body1 NotFound
              (init world_nolock) world_nolock world_nolock Hsetup Hread Hhead)
    as (_ & r & s' & c & Hmain & T & P & D).
  exists r, s'. rewrite T. auto.
Defined.

Lemma fill_latest_overwrites_iff_older_witness :
  s3_getObject "bucket" "p/..latest.json" world_pointer = (Found pointer0, world_pointer)
  /\ pointer_state (Found pointer0) = Some (Clock 4000)
  /\ exists s' evs,
      fill_latest "bucket" "p/..latest.json" "v1" 5000 (init world_pointer)
        = Some (Ok tt, s')
      /\ trace s' = EvGetObject "bucket" "p/..latest.json" (Found pointer0) :: evs
      /\ puts evs = [("bucket", "p/..latest.json", utils.formatLatest "v1" 5000)].
Proof.
  assert (Hget : s3_getObject "bucket" "p/..latest.json" world_pointer
                 = (Found pointer0, world_pointer)) by reflexivity.
  assert (Hst : pointer_state (Found pointer0) = Some (Clock 4000)) by reflexivity.
  split; [exact Hget|]. split; [exact Hst|].
  destruct (fill_latest_overwrites_iff_older (Henv:=env)
              "bucket" "p/..latest.json" "v1" 5000 (init world_pointer)
              (Found pointer0) world_pointer (Clock 4000) Hget Hst)
    as (s' & evs & E & T & _ & Hclock).
  exists s', evs. split; [exact E|]. split; [exact T|].
  destruct (Hclock 4000 eq_refl) as [[_ Hlt] _]. apply Hlt. reflexivity.
Defined.

Lemma expiring_version_keeps_persistent_pointer_witness :
  s3_getObject "bucket" "p/..latest.json" world_pointer = (Found pointer0, world_pointer)
  /\ pointer_state (Found pointer0) = Some (Clock 4000)
  /\ (forall t, Clock 4000 = Clock t -> -1 <= t)
  /\ exists s',
      fill_persistent "bucket" body1 true 5000 (init world_pointer) = Some (Ok tt, s')
      /\ trace s' = [EvGetObject "bucket" "p/..latest.json" (Found pointer0)]
      /\ world s' = world_pointer.
Proof.
  assert (Hsentinel : forall t, Clock 4000 = Clock t -> -1 <= t)
    by (intros t [= <-]; discriminate).
  assert (Hget : s3_getObject "bucket" "p/..latest.json" world_pointer
                 = (Found pointer0, world_pointer)) by reflexivity.
  assert (Hst : pointer_state (Found pointer0) = Some (Clock 4000)) by reflexivity.
  split; [exact Hget|]. split; [exact Hst|]. split; [exact Hsentinel|].
  destruct (expiring_version_keeps_persistent_pointer (Henv:=env) (Hpaths:=layout)
              "bucket" body1 5000 (init world_pointer)
              (Found pointer0) world_pointer (Clock 4000) Hget Hst Hsentinel)
    as (s' & evs & E & T & _ & Hkept).
  destruct Hkept as (-> & Hw & _); [discriminate|].
  exists s'. auto.
Defined.

Lemma aggregation_collects_json_objects_witness :
  exists pages gets w1,
    listing_of "bucket" "p/v1/" None world1 pages gets w1
    /\ (List.length pages <= 2)%nat
    /\ Forall (fun g => resolves (snd g)) gets
    /\ Forall (fun p => p = Ok tt) (writes Cases.state_pending)
    /\ map fst gets = ["p/v1/a.json"; "p/v1/b.json"]
    /\ exists s',
        aggregation 2 "bucket" body1 Cases.state_pending = Some (Ok tt, s')
        /\ puts (trace s')
           = [("bucket", "p/v1/..aggregated.json",
               VArr [VObj [("a", VNum 1)]; VObj [("b", VNum 2)]])].
Proof.
  eassert (L : listing_of "bucket" "p/v1/" None world1 _ _ _).
  { eapply listing_more; [reflexivity|reflexivity|reflexivity|].
    eapply listing_last; reflexivity. }
  eexists _, _, _. split; [exact L|].
  assert (F : (2 <= 2)%nat) by lia.
  split; [exact F|].
  assert (R : Forall (fun g : string * Fetched => resolves (snd g))
                [("p/v1/a.json", Found (VObj [("a", VNum 1)]));
                 ("p/v1/b.json", Found (VObj [("b", VNum 2)]))])
    by (repeat constructor).
  split; [exact R|].
  assert (P : Forall (fun p => p = Ok tt) (writes Cases.state_pending))
    by (repeat constructor).
  split; [exact P|].
  destruct (aggregation_collects_json_objects (Henv:=env) (Hpaths:=layout)
              2 "bucket" body1 Cases.state_pending _ _ _ L F)
    as (K & Hruns & Hblob).
  split; [reflexivity|].
  destruct (Hruns R P) as (s' & E).
  exists s'. split; [exact E|].
  destruct (Hblob s' E) as (_ & evs & p & T & _ & _ & _ & _ & Pd).
  rewrite T. unfold Cases.state_pending. cbn [trace app].
  rewrite puts_app, Pd. reflexivity.
Defined.

Lemma expiry_job_recorded_witness :
  Date_toISOString (timestamp body1) = Some "T1000"
  /\ Date_toISOString (VNum 5000) = Some "T5000"
  /\ s3_getObject "bucket" "p/v1/..expiry.json" world_expiry = (Found expiry1, world_expiry)
  /\ prop expiry1 "expires_in" = Ok (VNum 86400000)
  /\ Date_toISOString (VNum (5000 + 86400000)) = Some "T86405000"
  /\ http_fetch (expiry_request "owner/repo" "bot-token" body1 (VNum (5000 + 86400000)))
       world_expiry = (Ok created, world_expiry)
  /\ 200 <= status created <= 299
  /\ exists p s',
      version_metadata "bucket" "owner/repo" "bot-token" body1 5000 (init world_expiry)
        = Some (Ok true, s')
      /\ puts (trace s')
         = [("bucket", "p/v1/..revision.json",
             VObj [("upload_time", VStr "T1000"); ("index_time", VStr "T5000");
                   ("expiry_time", VStr "T86405000"); ("expiry_job_id", VNum 42)])]
      /\ writes s' = [p].
Proof.
  assert (Hstatus : 200 <= status created <= 299) by (cbn; lia).
  assert (Hup : Date_toISOString (timestamp body1) = Some "T1000") by reflexivity.
  assert (Hidx : Date_toISOString (VNum 5000) = Some "T5000") by reflexivity.
  assert (Hget : s3_getObject "bucket" "p/v1/..expiry.json" world_expiry
                 = (Found expiry1, world_expiry)) by reflexivity.
  assert (Hexp : prop expiry1 "expires_in" = Ok (VNum 86400000)) by reflexivity.
  assert (Hiso : Date_toISOString (VNum (5000 + 86400000)) = Some "T86405000")
    by (vm_compute; reflexivity).
  assert (Hfetch : http_fetch (expiry_request "owner/repo" "bot-token" body1
                                 (VNum (5000 + 86400000))) world_expiry
                   = (Ok created, world_expiry)) by (vm_compute; reflexivity).
  split; [exact Hup|]. split; [exact Hidx|]. split; [exact Hget|].
  split; [exact Hexp|]. split; [exact Hiso|]. split; [exact Hfetch|].
  split; [exact Hstatus|].
  destruct (expiry_job_recorded (Henv:=env) (Hrt:=runtime) (Hpaths:=layout) "bucket" "owner/repo" "bot-token" body1
              5000 86400000 "T1000" "T5000" "T86405000" expiry1 created
              (init world_expiry) world_expiry world_expiry
              Hup Hidx Hget Hexp Hiso Hfetch)
    as (_ & _ & Hcreated).
  destruct (Hcreated Hstatus (VObj [("number", VNum 42)]) (VNum 42) eq_refl eq_refl)
    as (p & w3 & E).
  exists p. eexists. split; [exact E|]. split; reflexivity.
Defined.

(** C5: a run in which the closing of the ticket throws.  A step of the
    [try] has thrown and the comment is posted, yet the lock, present
    before the run, has been deleted. *)
Lemma failed_close_leaves_lock_deleted :
  setup penv argv = Ok cfg
  /\ store world_close_fails !! "p/v1/..LOCK" = Some VNull
  /\ exists s1 s',
      core 5 "bucket" "owner/repo" "7" "bot-token" "params.json"
        (mkSt world_close_fails [] [] 1) = Some (Throw close_failed, s1)
      /\ main 5 penv argv (init world_close_fails) = Some (Ok tt, s')
      /\ trace s' = trace s1
           ++ [EvConsoleError close_failed;
               EvFetch (comment_request "owner/repo" "7" "bot-token" close_failed)
                 (comments_api world_close_fails)]
      /\ deleted (trace s') = [("bucket", "p/v1/..LOCK")]
      /\ store (world s') !! "p/v1/..LOCK" = None.
Proof.
  split; [reflexivity|]. split; [reflexivity|].
  eexists _, _. split; [vm_compute; reflexivity|].
  split; [vm_compute; reflexivity|].
  split; [reflexivity|]. split; reflexivity.
Qed.

Lemma failed_run_reports_and_keeps_lock_until_close_witness :
  setup penv argv = Ok cfg
  /\ exists s1,
      core (Henv:=Cases.env_sealed) 5 "bucket" "owner/repo" "7" "bot-token" "params.json"
        (mkSt world1 [] [] 1) = Some (Throw Cases.denied, s1)
      /\ handled_in_time (trace s1) = true
      /\ exists r s' c,
          main (Henv:=Cases.env_sealed) 5 penv argv (init world1) = Some (r, s')
          /\ trace s' = trace s1
               ++ [EvConsoleError Cases.denied;
                   EvFetch (comment_request "owner/repo" "7" "bot-token" Cases.denied) c].
Proof.
  assert (Hsetup : setup penv argv = Ok cfg) by reflexivity.
  split; [exact Hsetup|].
  eassert (Hcore : core (Henv:=Cases.env_sealed) 5 "bucket" "owner/repo" "7" "bot-token"
                     "params.json" (mkSt world1 [] [] 1) = Some (Throw Cases.denied, _))
    by (vm_compute; reflexivity).
  match type of Hcore with
  | _ = Some (_, ?s1) =>
      assert (Htrace : trace s1 = trace (init world1) ++ trace s1) by reflexivity;
      assert (Hhandled : handled_in_time (trace s1) = true) by (vm_compute; reflexivity)
  end.
  eexists. split; [exact Hcore|].
  split; [exact Hhandled|].
  destruct (failed_run_reports_and_keeps_lock_until_close
              (Henv:=Cases.env_sealed) (Hrt:=runtime) (Hpaths:=layout) 5 penv argv
              "bot-token" "bucket" "owner/repo" "7" "params.json"
              (init world1) _ Cases.denied _ Hsetup Hcore Htrace Hhandled)
    as (r & s' & c & Hmain & T & _).
  exists r, s', c. auto.
Defined.


(** C9: a run that passes the set-up, in which the lock is absent and
    the POST of the comment throws.  The exception is thrown out of the
    module and the exit code is 1. *)
Lemma comment_failure_exits_nonzero :
  setup penv argv = Ok cfg
  /\ exists s',
      main 0 penv argv (init world_mute) = Some (Throw fetch_failed, s')
      /\ In (EvReadFile "params.json" (Ok body1)) (trace s')
      /\ exitCode s' = 1
      /\ exitCode s' <> 0.
Proof.
  split; [reflexivity|].
  eexists. split; [vm_compute; reflexivity|].
  split; [left; reflexivity|]. split; [reflexivity|discriminate].
Qed.

Lemma exit_code_convention_witness :
  exists s',
    main (Henv:=Cases.env_sealed) 5 penv argv (init world1) = Some (Ok tt, s')
    /\ handled_in_time (trace s') = true
    /\ In (EvConsoleError Cases.denied) (trace s')
    /\ exitCode s' = 0.
Proof.
  eassert (Hmain : main (Henv:=Cases.env_sealed) 5 penv argv (init world1) = Some (Ok tt, _))
    by (vm_compute; reflexivity).
  match type of Hmain with
  | _ = Some (_, ?s1) =>
      assert (Htrace : trace s1 = trace (init world1) ++ trace s1) by reflexivity;
      assert (Hhandled : handled_in_time (trace s1) = true) by (vm_compute; reflexivity)
  end.
  eexists. split; [exact Hmain|].
  split; [exact Hhandled|].
  split; [vm_compute; tauto|].
  destruct (exit_code_convention (Henv:=Cases.env_sealed) (Hrt:=runtime) (Hpaths:=layout)
              5 penv argv (init world1) _ _ _ Hmain Htrace Hhandled)
    as [(Hexit & _)|(_ & e' & [=] & _)].
  exact Hexit.
Defined.

Lemma comment_failure_keeps_exit_code_witness :
  setup penv argv = Ok cfg
  /\ exists s1,
      core 0 "bucket" "owner/repo" "7" "bot-token" "params.json"
        (mkSt world_mute [] [] 1) = Some (Throw lock_error, s1)
      /\ http_fetch (comment_request "owner/repo" "7" "bot-token" lock_error) (world s1)
         = (Throw fetch_failed, world_mute)
      /\ exists s',
          main 0 penv argv (init world_mute) = Some (Throw fetch_failed, s')
          /\ exitCode s' = 1.
Proof.
  assert (Hsetup : setup penv argv = Ok cfg) by reflexivity.
  split; [exact Hsetup|].
  eassert (Hcore : core 0 "bucket" "owner/repo" "7" "bot-token" "params.json"
                     (mkSt world_mute [] [] 1) = Some (Throw lock_error, _))
    by (vm_compute; reflexivity).
  eexists. split; [exact Hcore|].
  assert (Hc : http_fetch (comment_request "owner/repo" "7" "bot-token" lock_error)
                 world_mute = (Throw fetch_failed, world_mute))
    by (vm_compute; reflexivity).
  split; [exact Hc|].
  destruct (comment_failure_keeps_exit_code (Henv:=env) (Hrt:=runtime) (Hpaths:=layout) 0 penv argv
              "bot-token" "bucket" "owner/repo" "7" "params.json"
              (init world_mute) _ lock_error fetch_failed world_mute
              Hsetup Hcore Hc)
    as (Hmain & _).
  eexists. split; [exact Hmain|reflexivity].
Defined.
End Scenarios.

(** * Further properties of the script *)

(** ** Keys with the JSON suffix *)

Section Suffix.
Local Arguments String.append !_ _ / : simpl nomatch.

Lemma length_append (s1 s2 : string) :
  String.length (s1 ++ s2)%string = (String.length s1 + String.length s2)%nat.
Proof. induction s1 as [|c s1 IH]; simpl; congruence. Qed.

Lemma substring_whole (s : string) : substring 0 (String.length s) s = s.
Proof. induction s as [|c s IH]; simpl; congruence. Qed.

Lemma substring_append_suffix (p suffix : string) :
  substring (String.length p) (String.length suffix) (p ++ suffix)%string = suffix.
Proof. induction p as [|c p IH]; simpl; [apply substring_whole|exact IH]. Qed.

Lemma substring_split (s : string) (k : nat) :
  (k <= String.length s)%nat ->
  s = (substring 0 k s ++ substring k (String.length s - k) s)%string.
Proof.
  revert k. induction s as [|c s IH]; intros [|k] Hk; simpl in *; try lia.
  - reflexivity.
  - rewrite substring_whole. reflexivity.
  - rewrite <- IH by lia. reflexivity.
Qed.

(** X1. A key is taken into the aggregation exactly when it is some
    stem, possibly empty, followed by [.json]. *)
Theorem json_keys_are_those_with_the_suffix (key : string) :
  is_json key = true <-> exists stem, key = (stem ++ ".json")%string.
Proof.
  unfold is_json, endsWith. split.
  - intros E. apply andb_true_iff in E as [Hle Heq].
    apply Nat.leb_le in Hle. apply String.eqb_eq in Heq.
    exists (substring 0 (String.length key - String.length ".json") key).
    rewrite <- Heq at 2.
    rewrite (substring_split key (String.length key - String.length ".json")) at 1
      by lia.
    do 2 f_equal. lia.
  - intros [stem ->]. rewrite length_append. apply andb_true_iff. split.
    + apply Nat.leb_le. lia.
    + replace (String.length stem + String.length ".json" - String.length ".json")%nat
        with (String.length stem) by lia.
      rewrite substring_append_suffix. apply String.eqb_refl.
Qed.
End Suffix.

Section Behaviour.
Context {W : Type} {Henv : Env W} {Hrt : Runtime} {Hpaths : internal.Paths}.

(** ** The set-up *)

Lemma unset_false (x : option string) : unset x = false <-> provided x.
Proof.
  unfold unset, provided. destruct x as [v|].
  - destruct (String.eqb_spec v "") as [->|N].
    + split; [discriminate|]. intros (v' & [= <-] & N). contradiction.
    + split; [eauto|reflexivity].
  - split; [discriminate|]. intros (v & [=] & _).
Qed.

(** X2. The checks before the [try] pass if and only if the three R2
    credentials and the bot token are set and not empty and the script is
    given exactly four arguments; the configuration is then the token and
    the four arguments, in order. *)
Theorem setup_succeeds_iff_configured (penv : ProcessEnv) (argv : list string)
    (cfg : string * (string * string * string * string)) :
  setup penv argv = Ok cfg
  <-> provided (R2_ACCOUNT_ID penv) /\ provided (R2_ACCESS_KEY_ID penv)
      /\ provided (R2_SECRET_ACCESS_KEY penv)
      /\ exists node script bucket repo issue path,
          argv = [node; script; bucket; repo; issue; path]
          /\ GH_BOT_TOKEN penv = Some (fst cfg) /\ fst cfg <> ""
          /\ snd cfg = (bucket, repo, issue, path).
Proof.
  unfold setup. split.
  - destruct (unset (R2_ACCOUNT_ID penv)) eqn:Ha; [discriminate|].
    destruct (unset (R2_ACCESS_KEY_ID penv)) eqn:Hk; [discriminate|].
    destruct (unset (R2_SECRET_ACCESS_KEY penv)) eqn:Hs; [discriminate|].
    destruct (unset (GH_BOT_TOKEN penv)) eqn:Ht; [discriminate|].
    cbn [orb]. destruct (Z.eqb_spec (Z.of_nat (List.length argv) - 2) 4) as [Hn|Hn];
      [|discriminate].
    cbn [negb]. intros [= <-].
    apply unset_false in Ha, Hk, Hs, Ht. destruct Ht as (t & Ht & Nt).
    do 3 (split; [assumption|]).
    destruct argv as [|node [|script [|bucket [|repo [|issue [|path [|x argv]]]]]]];
      cbn in Hn; try lia.
    exists node, script, bucket, repo, issue, path. rewrite Ht. cbn. auto.
  - intros (Ha & Hk & Hs & node & script & bucket & repo & issue & path
            & -> & Ht & Nt & Hcfg).
    assert (Ht' : provided (GH_BOT_TOKEN penv)) by (eexists; eauto).
    apply unset_false in Ha, Hk, Hs, Ht'. rewrite Ha, Hk, Hs, Ht'. cbn.
    rewrite Ht. cbn. destruct cfg as [t c]. cbn in Hcfg. subst c. reflexivity.
Qed.

Ltac str_absurd :=
  match goal with
  | H : @eq string ?a ?b |- _ =>
      apply String.eqb_eq in H; vm_compute in H; discriminate H
  end.

Ltac setup_case :=
  intros [= <-]; cbn [message Error];
  repeat split; intros; try reflexivity; try (exfalso; str_absurd);
  try solve [intuition (try discriminate; try lia)].

(** X3. When a check of the set-up fails, the exception leaves the module
    before any call: the world and the trace are as they were and the exit
    code is 1.  Missing R2 credentials are reported first, then a missing
    bot token, then a wrong number of arguments. *)
Theorem setup_failure_stops_before_any_call
    (fuel : nat) (penv : ProcessEnv) (argv : list string) (s : St W) (e : Exn) :
  setup penv argv = Throw e ->
  main fuel penv argv s = Some (Throw e, mkSt (world s) (trace s) (writes s) 1)
  /\ (message e = "missing R2 credentials"
      <-> ~ (provided (R2_ACCOUNT_ID penv) /\ provided (R2_ACCESS_KEY_ID penv)
             /\ provided (R2_SECRET_ACCESS_KEY penv)))
  /\ (message e = "missing GitHub bot token"
      <-> (provided (R2_ACCOUNT_ID penv) /\ provided (R2_ACCESS_KEY_ID penv)
           /\ provided (R2_SECRET_ACCESS_KEY penv))
          /\ ~ provided (GH_BOT_TOKEN penv))
  /\ (message e
        = "expected 4 arguments - BUCKET_NAME, REPO_NAME, ISSUE_NUMBER, PARAMETER_PATH"
      <-> (provided (R2_ACCOUNT_ID penv) /\ provided (R2_ACCESS_KEY_ID penv)
           /\ provided (R2_SECRET_ACCESS_KEY penv))
          /\ provided (GH_BOT_TOKEN penv)
          /\ List.length argv <> 6%nat).
Proof.
  intros Hsetup. split; [apply main_setup_error; exact Hsetup|].
  revert Hsetup. unfold setup.
  pose proof (unset_false (R2_ACCOUNT_ID penv)) as Ha.
  pose proof (unset_false (R2_ACCESS_KEY_ID penv)) as Hk.
  pose proof (unset_false (R2_SECRET_ACCESS_KEY penv)) as Hs.
  pose proof (unset_false (GH_BOT_TOKEN penv)) as Ht.
  destruct (unset (R2_ACCOUNT_ID penv)); cbn [orb].
  { setup_case. }
  destruct (unset (R2_ACCESS_KEY_ID penv)); cbn [orb].
  { setup_case. }
  destruct (unset (R2_SECRET_ACCESS_KEY penv)); cbn [orb].
  { setup_case. }
  destruct (unset (GH_BOT_TOKEN penv)).
  { setup_case. }
  destruct (Z.eqb_spec (Z.of_nat (List.length argv) - 2) 4) as [Hn|Hn]; cbn [negb];
    [discriminate|].
  assert (Hlen : List.length argv <> 6%nat) by lia.
  setup_case.
Qed.

(** ** Failures before the first write *)

(** X4. When the parameter file cannot be read or parsed, the run makes
    no call to the storage: it reads the file, logs the exception and
    posts its message as a comment. *)
Theorem unreadable_parameters_touch_no_storage
    (fuel : nat) (penv : ProcessEnv) (argv : list string)
    (token bucket repo issue path : string) (s : St W) (e : Exn) (w1 : W) :
  setup penv argv = Ok (token, (bucket, repo, issue, path)) ->
  fs_readParams path (world s) = (Throw e, w1) ->
  exists r s' c,
    main fuel penv argv s = Some (r, s')
    /\ trace s' = trace s
         ++ [EvReadFile path (Throw e); EvConsoleError e;
             EvFetch (comment_request repo issue token e) c].
Proof.
  intros Hsetup Hread.
  assert (Hcore : core fuel bucket repo issue token path
                    (mkSt (world s) (trace s) (writes s) 1)
                  = Some (Throw e, mkSt w1 (trace s ++ [EvReadFile path (Throw e)])
                                     (writes s) 1)).
  { unfold core. erewrite bind_ok by (apply call_eq; exact Hread). reflexivity. }
  rewrite (main_after_core _ _ _ _ _ _ _ _ _ _ _ Hsetup Hcore).
  destruct (http_fetch (comment_request repo issue token e) w1) as [c w2] eqn:Hc.
  cbn [world]. rewrite Hc.
  eexists _, _, c. split; [reflexivity|]. cbn [trace]. rewrite <- app_assoc. reflexivity.
Qed.

(** X5. When the upload timestamp of the parameters is not a valid date,
    the body of the [try] throws a [RangeError] right after the lock
    check and the reading of the clock: nothing is looked up, no ticket
    is created and nothing is written. *)
Theorem invalid_timestamp_fails_after_lock_check
    (fuel : nat) (bucket repo issue token path : string) (body : Body)
    (s : St W) (w1 w2 w3 : W) (now : Z) :
  fs_readParams path (world s) = (Ok body, w1) ->
  s3_headObject bucket (internal.lock (project body) (version body)) w1 = (Ok tt, w2) ->
  Date_now w2 = (now, w3) ->
  Date_toISOString (timestamp body) = None ->
  core fuel bucket repo issue token path s
    = Some (Throw (RangeError "Invalid time value"),
            mkSt w3
              (trace s
                 ++ [EvReadFile path (Ok body);
                     EvHeadObject bucket (internal.lock (project body) (version body))
                       (Ok tt);
                     EvDateNow now])
              [] (exitCode s)).
Proof.
  intros Hread Hhead Hnow Hdate. unfold core.
  erewrite bind_ok by (apply call_eq; exact Hread).
  erewrite bind_ok by reflexivity.
  erewrite bind_ok by reflexivity. cbv zeta.
  erewrite bind_throw; [reflexivity|].
  unfold prepare.
  erewrite bind_ok
    by (unfold lock_check; apply try_catch_ok, headObject_eq; exact Hhead).
  erewrite bind_ok by (apply call_eq; exact Hnow).
  erewrite bind_throw; [reflexivity|].
  unfold version_metadata. erewrite bind_throw; [reflexivity|].
  unfold toISOString. rewrite Hdate. cbn. rewrite <- !app_assoc. reflexivity.
Qed.

(** ** Version metadata *)

(** X6. Without an expiry file the version metadata holds the two dates
    only, and the block makes two calls: the lookup of the expiry file and
    the write of the metadata.  No ticket is created, and the version is
    not expirable. *)
Theorem version_without_expiry_creates_no_ticket
    (bucket repo token : string) (body : Body) (index_time : Z)
    (upload_time index_iso : string) (s : St W) (w1 w2 : W) (p : Res unit) :
  Date_toISOString (timestamp body) = Some upload_time ->
  Date_toISOString (VNum index_time) = Some index_iso ->
  s3_getObject bucket (internal.expiry (project body) (version body)) (world s)
    = (Missing, w1) ->
  s3_putObject bucket (internal.versionMetadata (project body) (version body))
    (VObj [("upload_time", VStr upload_time); ("index_time", VStr index_iso)]) w1
    = (p, w2) ->
  version_metadata bucket repo token body index_time s
    = Some (Ok false,
            mkSt w2
              (trace s
                 ++ [EvGetObject bucket (internal.expiry (project body) (version body))
                       Missing;
                     EvPutObject bucket
                       (internal.versionMetadata (project body) (version body))
                       (VObj [("upload_time", VStr upload_time);
                              ("index_time", VStr index_iso)]) p])
              (writes s ++ [p]) (exitCode s)).
Proof.
  intros Hup Hidx Hget Hput. unfold version_metadata.
  erewrite bind_ok by (apply toISOString_eq; exact Hup).
  erewrite bind_ok by (apply toISOString_eq; exact Hidx).
  erewrite bind_ok by (erewrite getJson_eq by exact Hget; reflexivity).
  cbv zeta. cbn [strict_not_null].
  erewrite bind_ok by reflexivity.
  erewrite bind_ok by (apply push_putJson_eq; exact Hput).
  cbn. rewrite <- !app_assoc. reflexivity.
Qed.

(** X7. When the expiry ticket is created (a 2xx response) but the body
    of the response cannot be read as JSON, or is [null], the block throws
    after the ticket exists: the version metadata is not written. *)
Theorem unreadable_ticket_response_leaves_no_metadata
    (bucket repo token : string) (body : Body) (index_time expires_in : Z)
    (upload_time index_iso expiry_time : string)
    (exp_info : Value) (res : Response) (err : Exn) (s : St W) (w1 w2 : W) :
  Date_toISOString (timestamp body) = Some upload_time ->
  Date_toISOString (VNum index_time) = Some index_iso ->
  s3_getObject bucket (internal.expiry (project body) (version body)) (world s)
    = (Found exp_info, w1) ->
  prop exp_info "expires_in" = Ok (VNum expires_in) ->
  Date_toISOString (VNum (index_time + expires_in)) = Some expiry_time ->
  http_fetch (expiry_request repo token body (VNum (index_time + expires_in))) w1
    = (Ok res, w2) ->
  200 <= status res <= 299 ->
  ticket_number res = Throw err ->
  version_metadata bucket repo token body index_time s
    = Some (Throw err,
            mkSt w2
              (trace s
                 ++ [EvGetObject bucket (internal.expiry (project body) (version body))
                       (Found exp_info);
                     EvFetch (expiry_request repo token body
                                (VNum (index_time + expires_in))) (Ok res)])
              (writes s) (exitCode s)).
Proof.
  intros Hup Hidx Hget Hexp Hexpiry Hfetch Hstatus Hnumber.
  assert (Hnn : strict_not_null exp_info = true)
    by (destruct exp_info; try reflexivity; discriminate).
  assert (Hok : ok res = true) by (unfold ok; lia).
  unfold version_metadata.
  erewrite bind_ok by (apply toISOString_eq; exact Hup).
  erewrite bind_ok by (apply toISOString_eq; exact Hidx).
  erewrite bind_ok by (erewrite getJson_eq by exact Hget; reflexivity).
  cbv zeta. rewrite Hnn, Hexp. cbn [await js_add].
  erewrite bind_throw; [reflexivity|].
  erewrite bind_ok by reflexivity.
  erewrite bind_ok by (apply toISOString_eq; exact Hexpiry).
  erewrite bind_ok by (apply fetch_eq; exact Hfetch).
  rewrite Hok. cbn [negb]. unfold ticket_number in Hnumber.
  destruct (json res) as [payload|e0].
  - cbn [await]. erewrite bind_ok by reflexivity. rewrite Hnumber.
    cbn. rewrite <- !app_assoc. reflexivity.
  - injection Hnumber as <-. cbn. rewrite <- !app_assoc. reflexivity.
Qed.

(** ** Latest pointers *)

(** X8. A latest pointer that exists but has no numeric [index_time]
    stops the update: [fill_latest] throws the error of the malformed
    pointer after reading it, and writes nothing. *)
Theorem malformed_pointer_is_never_overwritten
    (bucket l v : string) (i : Z) (s : St W) (content x : Value) (w1 : W) :
  s3_getObject bucket l (world s) = (Found content, w1) ->
  loose_null content = false ->
  prop content "index_time" = Ok x ->
  is_number x = false ->
  fill_latest bucket l v i s
    = Some (Throw latest_error,
            mkSt w1 (trace s ++ [EvGetObject bucket l (Found content)]) (writes s)
              (exitCode s)).
Proof.
  intros Hget Hnn Hprop Hnum. unfold fill_latest.
  erewrite bind_ok by (erewrite getJson_eq by exact Hget; reflexivity).
  rewrite Hnn, Hprop. erewrite bind_throw; [reflexivity|].
  erewrite bind_ok by reflexivity.
  destruct x; try discriminate; reflexivity.
Qed.

(** X9. A pointer object whose content is the JSON [null] counts as no
    pointer: the candidate is written over it. *)
Theorem null_pointer_is_overwritten
    (bucket l v : string) (i : Z) (s : St W) (w1 w2 : W) (p : Res unit) :
  s3_getObject bucket l (world s) = (Found VNull, w1) ->
  s3_putObject bucket l (utils.formatLatest v i) w1 = (p, w2) ->
  fill_latest bucket l v i s
    = Some (Ok tt,
            mkSt w2
              (trace s ++ [EvGetObject bucket l (Found VNull);
                           EvPutObject bucket l (utils.formatLatest v i) p])
              (writes s ++ [p]) (exitCode s)).
Proof.
  intros Hget Hput. unfold fill_latest.
  erewrite bind_ok by (erewrite getJson_eq by exact Hget; reflexivity).
  cbn [loose_null]. erewrite bind_ok by reflexivity. cbv beta iota.
  erewrite push_putJson_eq by exact Hput. cbn. rewrite <- app_assoc. reflexivity.
Qed.

(** What the script writes as a pointer, it reads as a pointer with the
    same clock. *)
Lemma pointer_state_formatLatest v i :
  pointer_state (Found (utils.formatLatest v i)) = Some (Clock i).
Proof. reflexivity. Qed.

(** X10. For a project without pointers, the two pointers are written one
    after the other: the persistent pointer with the placeholder when the
    version expires and with the version and its [index_time] otherwise,
    the all-versions pointer with the version and its [index_time] in
    both cases. *)
Theorem first_version_sets_both_pointers
    (bucket : string) (body : Body) (has_expiry : bool) (index_time : Z)
    (s : St W) (w1 w2 w3 w4 : W) (p1 p2 : Res unit) :
  let persistent :=
    if has_expiry then utils.formatLatest "" (-1)
    else utils.formatLatest (version body) index_time in
  let all := utils.formatLatest (version body) index_time in
  s3_getObject bucket (internal.latestPersistent (project body)) (world s)
    = (Missing, w1) ->
  s3_putObject bucket (internal.latestPersistent (project body)) persistent w1
    = (p1, w2) ->
  s3_getObject bucket (internal.latestAll (project body)) w2 = (Missing, w3) ->
  s3_putObject bucket (internal.latestAll (project body)) all w3 = (p2, w4) ->
  update_latest bucket body has_expiry index_time s
    = Some (Ok tt,
            mkSt w4
              (trace s
                 ++ [EvGetObject bucket (internal.latestPersistent (project body)) Missing;
                     EvPutObject bucket (internal.latestPersistent (project body))
                       persistent p1;
                     EvGetObject bucket (internal.latestAll (project body)) Missing;
                     EvPutObject bucket (internal.latestAll (project body)) all p2])
              (writes s ++ [p1; p2]) (exitCode s)).
Proof.
  destruct has_expiry; intros persistent all Hget1 Hput1 Hget2 Hput2;
    unfold update_latest, fill_persistent;
    (erewrite bind_ok
       by (erewrite (fill_latest_eq _ _ _ _ _ _ _ Absent) by eauto; reflexivity));
    erewrite (fill_latest_eq _ _ _ _ _ _ _ Absent) by eauto;
    cbn; rewrite <- !app_assoc; reflexivity.
Qed.

(** X11. Once a candidate has been written, and the bucket gives back
    what was written, a second update with a candidate that is not newer
    only reads the pointer: repeating an update, or replaying an older
    one, writes nothing. *)
Theorem recorded_pointer_is_not_displaced_by_older
    (bucket l v v' : string) (i i' : Z) (s : St W) (got : Fetched) (st : Pointer)
    (w1 w2 w3 : W) (p : Res unit) :
  s3_getObject bucket l (world s) = (got, w1) ->
  pointer_state got = Some st ->
  (forall t, st = Clock t -> t < i) ->
  s3_putObject bucket l (utils.formatLatest v i) w1 = (p, w2) ->
  s3_getObject bucket l w2 = (Found (utils.formatLatest v i), w3) ->
  i' <= i ->
  (fill_latest bucket l v i ;;; fill_latest bucket l v' i') s
    = Some (Ok tt,
            mkSt w3
              (trace s
                 ++ [EvGetObject bucket l got;
                     EvPutObject bucket l (utils.formatLatest v i) p;
                     EvGetObject bucket l (Found (utils.formatLatest v i))])
              (writes s ++ [p]) (exitCode s)).
Proof.
  intros Hget Hst Hnewer Hput Hback Hle.
  destruct (s3_putObject bucket l (utils.formatLatest v' i') w3) as [p' w4] eqn:Hput'.
  erewrite bind_ok by (eapply (fill_latest_eq _ _ _ _ _ _ _ st); eauto).
  assert (Hfirst : match st with Absent => true | Clock t => t <? i end = true).
  { destruct st as [|t]; [reflexivity|]. apply Z.ltb_lt. auto. }
  rewrite Hfirst.
  erewrite (fill_latest_eq _ _ _ _ _ _ _ (Clock i))
    by (eauto using pointer_state_formatLatest).
  assert (Hsecond : (i <? i') = false) by (apply Z.ltb_ge; exact Hle).
  rewrite Hsecond. cbn. rewrite <- !app_assoc. reflexivity.
Qed.

(** X12. A placeholder left by an expiring version is replaced by the
    first version without expiry: its clock -1 is below every clock
    value, which is not negative. *)
Theorem placeholder_yields_to_real_version
    (bucket : string) (body : Body) (index_time : Z) (s : St W) (w1 w2 : W)
    (p : Res unit) :
  s3_getObject bucket (internal.latestPersistent (project body)) (world s)
    = (Found (utils.formatLatest "" (-1)), w1) ->
  0 <= index_time ->
  s3_putObject bucket (internal.latestPersistent (project body))
    (utils.formatLatest (version body) index_time) w1 = (p, w2) ->
  fill_persistent bucket body false index_time s
    = Some (Ok tt,
            mkSt w2
              (trace s
                 ++ [EvGetObject bucket (internal.latestPersistent (project body))
                       (Found (utils.formatLatest "" (-1)));
                     EvPutObject bucket (internal.latestPersistent (project body))
                       (utils.formatLatest (version body) index_time) p])
              (writes s ++ [p]) (exitCode s)).
Proof.
  intros Hget Hclock Hput. unfold fill_persistent.
  erewrite (fill_latest_eq _ _ _ _ _ _ _ (Clock (-1)))
    by (eauto using pointer_state_formatLatest).
  assert (Hlt : (-1 <? index_time) = true) by (apply Z.ltb_lt; lia).
  rewrite Hlt. reflexivity.
Qed.

(** ** Permissions *)

(** X13. When the flag is not set and the head request on the permissions
    fails with a status other than 404, the block throws that very
    exception: the permissions are not written. *)
Theorem permissions_check_failure_is_rethrown
    (bucket : string) (body : Body) (s : St W) (e : Exn) (w1 : W) :
  truthy (overwrite_permissions body) = false ->
  s3_headObject bucket (internal.permissions (project body)) (world s) = (Throw e, w1) ->
  status_is e 404 = false ->
  save_permissions bucket body s
    = Some (Throw e,
            mkSt w1
              (trace s ++ [EvHeadObject bucket (internal.permissions (project body))
                             (Throw e)])
              (writes s) (exitCode s)).
Proof.
  intros Hflag Hhead Hstatus. unfold save_permissions. rewrite Hflag. cbn [negb].
  erewrite bind_throw; [reflexivity|].
  erewrite try_catch_throw
    by (erewrite bind_throw by (apply headObject_eq; exact Hhead); reflexivity).
  rewrite Hstatus. reflexivity.
Qed.

(** X14. When the flag is set, the permissions are written without
    looking at what exists: the block makes one call, the put. *)
Theorem overwrite_flag_skips_the_check
    (bucket : string) (body : Body) (s : St W) (w1 : W) (p : Res unit) :
  truthy (overwrite_permissions body) = true ->
  s3_putObject bucket (internal.permissions (project body)) (permissions body) (world s)
    = (p, w1) ->
  save_permissions bucket body s
    = Some (Ok tt,
            mkSt w1
              (trace s ++ [EvPutObject bucket (internal.permissions (project body))
                             (permissions body) p])
              (writes s ++ [p]) (exitCode s)).
Proof.
  intros Hflag Hput. unfold save_permissions. rewrite Hflag. cbn [negb].
  erewrite bind_ok by reflexivity. cbv beta iota.
  apply push_putJson_eq. exact Hput.
Qed.

(** ** Aggregation *)

(** A page without JSON keys adds no promise and makes no call. *)
Lemma collect_page_none bucket contents agg (s : St W) :
  List.filter is_json contents = [] ->
  collect_page bucket contents agg s = Some (Ok agg, s).
Proof.
  induction contents as [|key rest IH]; cbn [collect_page List.filter]; [reflexivity|].
  unfold is_json at 1. destruct (endsWith key ".json"); [discriminate|exact IH].
Qed.

(** X15. When the listing answers with one page that is not truncated
    and holds no JSON key (an empty version, for one), the block ends
    with any fuel but none: it lists once, fetches nothing and writes the
    empty array as the aggregated blob. *)
Theorem listing_without_json_writes_empty_blob
    (fuel : nat) (bucket : string) (body : Body) (info : Listing)
    (s : St W) (w1 w2 : W) (p : Res unit) :
  s3_listObjectsV2 bucket (project body ++ "/" ++ version body ++ "/")%string None
    (world s) = (Ok info, w1) ->
  IsTruncated info = false ->
  List.filter is_json (Contents info) = [] ->
  s3_putObject bucket (internal.aggregated (project body) (version body)) (VArr []) w1
    = (p, w2) ->
  aggregation (S fuel) bucket body s
    = Some (Ok tt,
            mkSt w2
              (trace s
                 ++ [EvListObjectsV2 bucket
                       (project body ++ "/" ++ version body ++ "/")%string None (Ok info);
                     EvPutObject bucket
                       (internal.aggregated (project body) (version body)) (VArr []) p])
              (writes s ++ [p]) (exitCode s)).
Proof.
  intros Hlist Htrunc Hjson Hput. unfold aggregation.
  erewrite bind_ok.
  2:{ rewrite listing_loop_S.
      erewrite bind_ok by (apply call_eq; exact Hlist).
      erewrite bind_ok by reflexivity.
      erewrite bind_ok by (apply collect_page_none; exact Hjson).
      rewrite Htrunc. reflexivity. }
  cbn [Promise_all await]. erewrite bind_ok by reflexivity.
  erewrite push_putJson_eq by exact Hput.
  cbn. rewrite <- !app_assoc. reflexivity.
Qed.

(** *** Calls of a kind *)

Lemma steps_call_await_in {A} P (op : W -> Res A * W) ev :
  (forall r, P (ev r) /\ put_outcomes [ev r] = []) ->
  steps P (x <- call op ev ;; await x).
Proof.
  intros HP. apply steps_bind; [apply steps_call; exact HP|].
  intros r. apply steps_await.
Qed.

Lemma steps_getJson_in P bucket key :
  (forall got, P (EvGetObject bucket key got)) ->
  steps P (utils.getJson (W:=W) bucket key).
Proof.
  intros HP. unfold utils.getJson.
  apply steps_bind; [apply steps_call; intros got; split; [apply HP|reflexivity]|].
  intros [content| |e]; [apply steps_ret|apply steps_ret|apply steps_throw].
Qed.

Lemma steps_toISOString_in P x : steps P (toISOString (W:=W) x).
Proof.
  unfold toISOString. destruct (Date_toISOString x); [apply steps_ret|apply steps_throw].
Qed.

Lemma steps_push_putJson_in P bucket key v :
  (forall r, P (EvPutObject bucket key v r)) ->
  steps P (push_putJson (W:=W) bucket key v).
Proof.
  intros HP s r s'. destruct (s3_putObject bucket key v (world s)) as [p w] eqn:E.
  rewrite (push_putJson_eq _ _ _ _ _ _ E). intros [= <- <-].
  exists [EvPutObject bucket key v p]. cbn. repeat split; auto.
Qed.

Lemma steps_collect_page_in P bucket contents agg :
  (forall key got, P (EvGetObject bucket key got)) ->
  steps P (collect_page (W:=W) bucket contents agg).
Proof.
  intros HP. revert agg.
  induction contents as [|key rest IH]; intros agg; cbn [collect_page].
  - apply steps_ret.
  - destruct (endsWith key ".json"); [|apply IH].
    apply steps_bind; [apply steps_async, steps_getJson_in, HP|intros p; apply IH].
Qed.

Lemma steps_listing_loop_in P fuel bucket prefix token agg :
  (forall key got, P (EvGetObject bucket key got)) ->
  (forall t r, P (EvListObjectsV2 bucket prefix t r)) ->
  steps P (listing_loop (W:=W) fuel bucket prefix token agg).
Proof.
  intros Hget Hlist. revert token agg.
  induction fuel as [|fuel IH]; intros token agg; cbn [listing_loop].
  - apply steps_diverge.
  - apply steps_bind;
      [apply steps_call; intros r; split; [apply Hlist|reflexivity]|intros r].
    apply steps_bind; [apply steps_await|intros info].
    apply steps_bind; [apply steps_collect_page_in, Hget|intros agg'].
    destruct (IsTruncated info); [apply IH|apply steps_ret].
Qed.

Lemma reading_puts evs : Forall reading evs -> puts evs = [] /\ put_outcomes evs = [].
Proof.
  induction 1 as [|ev evs R _ IH]; [auto|].
  destruct ev; try destruct R; exact IH.
Qed.

(** X16. The aggregated blob is written whole or not at all: when the
    block throws (the listing fails, or one of the fetches is rejected),
    it has only read the bucket, and [writes] is as it was. *)
Theorem failed_aggregation_writes_nothing
    (fuel : nat) (bucket : string) (body : Body) (s s' : St W) (e : Exn) :
  aggregation fuel bucket body s = Some (Throw e, s') ->
  exists evs,
    trace s' = trace s ++ evs
    /\ Forall reading evs
    /\ puts evs = []
    /\ writes s' = writes s.
Proof.
  unfold aggregation. intros E.
  assert (Hloop : steps reading
            (listing_loop (W:=W) fuel bucket
               (project body ++ "/" ++ version body ++ "/")%string None []))
    by (apply steps_listing_loop_in; intros; exact I).
  apply bind_inv in E as [(agg & s1 & E1 & E)|(e0 & E1 & _)].
  - apply Hloop in E1 as (evs & T & F & Wr & _).
    destruct (Promise_all agg) as [resolved|e0].
    + exfalso. erewrite bind_ok in E by reflexivity.
      destruct (s3_putObject bucket (internal.aggregated (project body) (version body))
                  (VArr resolved) (world s1)) as [p w] eqn:Hput.
      erewrite push_putJson_eq in E by exact Hput. discriminate.
    + cbn in E. injection E as _ <-.
      destruct (reading_puts _ F) as [Hp Ho]. rewrite Ho, app_nil_r in Wr. eauto.
  - apply Hloop in E1 as (evs & T & F & Wr & _).
    destruct (reading_puts _ F) as [Hp Ho]. rewrite Ho, app_nil_r in Wr. eauto.
Qed.

(** A page always comes to its end. *)
Lemma collect_page_returns bucket contents agg (s : St W) :
  exists agg' s', collect_page bucket contents agg s = Some (Ok agg', s').
Proof.
  revert agg s. induction contents as [|key rest IH]; intros agg s; cbn [collect_page].
  - eexists _, _. reflexivity.
  - destruct (endsWith key ".json"); [|apply IH].
    destruct (s3_getObject bucket key (world s)) as [got w] eqn:Hget.
    erewrite bind_ok by (apply async_eq, getJson_eq; exact Hget). apply IH.
Qed.

(** X17. The loop has no bound of its own: as long as the storage answers
    every listing call, from the first token on, with a truncated page,
    the block does not end, whatever the fuel. *)
Theorem truncated_listing_never_ends
    (bucket : string) (body : Body) (reachable : option string -> Prop) :
  reachable None ->
  (forall token w, reachable token ->
     exists info w',
       s3_listObjectsV2 bucket (project body ++ "/" ++ version body ++ "/")%string
         token w = (Ok info, w')
       /\ IsTruncated info = true
       /\ reachable (NextContinuationToken info)) ->
  forall fuel (s : St W), aggregation fuel bucket body s = None.
Proof.
  intros Hfirst Hnext fuel s.
  assert (Hloop : forall fuel token agg (s : St W), reachable token ->
            listing_loop fuel bucket (project body ++ "/" ++ version body ++ "/")%string
              token agg s = None).
  { clear fuel s. induction fuel as [|fuel IH]; intros token agg s Hr; [reflexivity|].
    rewrite listing_loop_S.
    destruct (Hnext token (world s) Hr) as (info & w' & Hlist & Htrunc & Hr').
    erewrite bind_ok by (apply call_eq; exact Hlist).
    erewrite bind_ok by reflexivity.
    destruct (collect_page_returns bucket (Contents info) agg
                (mkSt w' (trace s ++ [EvListObjectsV2 bucket
                   (project body ++ "/" ++ version body ++ "/")%string token (Ok info)])
                   (writes s) (exitCode s))) as (agg' & s2 & Hpage).
    erewrite bind_ok by exact Hpage.
    rewrite Htrunc. apply IH. exact Hr'. }
  unfold aggregation, bind. rewrite Hloop by exact Hfirst. reflexivity.
Qed.

(** ** Commit *)

Lemma Promise_all_rejected {A} (ps : list (Res A)) (e0 : Exn) :
  In (Throw e0) ps -> exists e, Promise_all ps = Throw e /\ In (Throw e) ps.
Proof.
  induction ps as [|[a|e1] ps IH]; cbn [Promise_all In]; [intros []| |].
  - intros [[=]|Hin]. destruct (IH Hin) as (e & -> & Hin'). eauto.
  - intros _. eauto.
Qed.

(** X18. When the commit is reached with a write that is rejected, it
    throws the error of a rejected write and makes no call: the lock is
    not deleted and the ticket is not closed. *)
Theorem rejected_write_keeps_lock_and_ticket
    (bucket repo issue token lockpath : string) (s : St W) (e0 : Exn) :
  In (Throw e0) (writes s) ->
  exists e,
    commit bucket repo issue token lockpath s = Some (Throw e, s)
    /\ In (Throw e) (writes s).
Proof.
  intros Hin. destruct (Promise_all_rejected _ _ Hin) as (e & Hall & Hin').
  exists e. split; [|exact Hin'].
  unfold commit, await_writes.
  erewrite bind_throw; [reflexivity|].
  erewrite bind_ok by reflexivity.
  rewrite Hall. reflexivity.
Qed.

(** ** What a run touches *)

Ltac confined_leaf := cbn [confined]; unfold well_known; eauto 10.

Ltac confined_step :=
  first
    [ apply steps_ret | apply steps_throw | apply steps_await | apply steps_get_writes
    | apply steps_toISOString_in
    | apply steps_getJson_in; intros ?; confined_leaf
    | apply steps_push_putJson_in; intros ?; confined_leaf
    | apply steps_call_await_in; intros ?; split; [confined_leaf|reflexivity]
    | apply steps_call; intros ?; split; [confined_leaf|reflexivity]
    | apply steps_bind; [|intros ?]
    | apply steps_try_catch; [|intros ?]
    | match goal with
      | |- steps _ (if ?b then _ else _) => destruct b
      | |- steps _ (match ?x with _ => _ end) => destruct x
      end ].

Lemma confined_fill_latest bucket repo issue token body l v i :
  well_known body l ->
  steps (confined bucket repo issue token body) (fill_latest (W:=W) bucket l v i).
Proof. intros Hl. unfold fill_latest. repeat confined_step. Qed.

Lemma confined_prepare fuel bucket repo issue token body :
  steps (confined bucket repo issue token body)
    (prepare (W:=W) fuel bucket repo token body
       (internal.lock (project body) (version body))).
Proof.
  unfold prepare.
  apply steps_bind; [unfold lock_check, headObject; repeat confined_step|intros _].
  apply steps_bind; [confined_step|intros index_time].
  apply steps_bind;
    [unfold version_metadata, fetch; repeat confined_step|intros has_expiry].
  apply steps_bind; [|intros _].
  { unfold aggregation.
    apply steps_bind; [apply steps_listing_loop_in; intros; confined_leaf|intros agg].
    repeat confined_step. }
  apply steps_bind; [unfold save_permissions, headObject; repeat confined_step|intros _].
  unfold update_latest, fill_persistent.
  apply steps_bind; [|intros _].
  - destruct has_expiry; apply confined_fill_latest; unfold well_known; auto.
  - apply confined_fill_latest; unfold well_known; auto.
Qed.

(** X19. A run touches only what is its own.  After it has read its
    parameters, every storage call is on the configured bucket; it asks
    for the existence of the lock and of the permissions only, lists the
    prefix of the version only, puts objects at the five well-known paths
    of the project and version only, and deletes nothing but the lock; the
    only ticket it creates is the expiry ticket, and the only ticket it
    closes is the originating one. *)
Theorem run_touches_only_its_own_objects
    (fuel : nat) (bucket repo issue token path : string) (s : St W)
    (r : Res unit) (s' : St W) :
  core fuel bucket repo issue token path s = Some (r, s') ->
  exists evs,
    trace s' = trace s ++ evs
    /\ ((exists e, evs = [EvReadFile path (Throw e)])
        \/ exists body rest,
             evs = EvReadFile path (Ok body) :: rest
             /\ Forall (confined bucket repo issue token body) rest).
Proof.
  unfold core. intros E.
  destruct (fs_readParams path (world s)) as [rd w0] eqn:Hread.
  erewrite bind_ok in E by (apply call_eq; exact Hread).
  destruct rd as [body|e].
  2:{ cbn in E. injection E as <- <-. exists [EvReadFile path (Throw e)]. eauto. }
  erewrite bind_ok in E by reflexivity.
  erewrite bind_ok in E by reflexivity. cbv zeta in E.
  assert (Hcommit : steps (confined bucket repo issue token body)
            (commit (W:=W) bucket repo issue token
               (internal.lock (project body) (version body)))).
  { unfold commit, await_writes, deleteObject, utils.closeIssue. repeat confined_step. }
  assert (Hall : steps (confined bucket repo issue token body)
            (prepare (W:=W) fuel bucket repo token body
               (internal.lock (project body) (version body)) ;;;
             commit bucket repo issue token
               (internal.lock (project body) (version body)))).
  { apply steps_bind; [apply confined_prepare|intros _; exact Hcommit]. }
  apply Hall in E as (rest & T & F & _). cbn [trace] in T.
  exists (EvReadFile path (Ok body) :: rest). rewrite T, <- app_assoc.
  split; [reflexivity|]. right. exists body, rest. auto.
Qed.

Lemma quiet_deletes evs : Forall quiet evs -> deletes evs = [].
Proof.
  induction 1 as [|ev evs Q _ IH]; [reflexivity|].
  destruct ev; try destruct Q; exact IH.
Qed.

Lemma quiet_closed evs : Forall quiet evs -> closed evs = [].
Proof.
  induction 1 as [|ev evs Q _ IH]; [reflexivity|].
  destruct ev; try destruct Q; exact IH.
Qed.

Lemma closed_app evs1 evs2 : closed (evs1 ++ evs2) = closed evs1 ++ closed evs2.
Proof. apply flat_map_app. Qed.

Lemma deleted_app evs1 evs2 : deleted (evs1 ++ evs2) = deleted evs1 ++ deleted evs2.
Proof. apply flat_map_app. Qed.

Lemma deletes_app evs1 evs2 : deletes (evs1 ++ evs2) = deletes evs1 ++ deletes evs2.
Proof. apply flat_map_app. Qed.

(** X20. The body of the [try] asks for at most one deletion, that of
    the lock, and closes the ticket at most once.  The ticket is closed
    only after the lock has been deleted, and then the outcome of the
    closing is the outcome of the body; when the deletion fails, the
    ticket is left open. *)
Theorem ticket_is_closed_only_after_unlock
    (fuel : nat) (bucket repo issue token path : string) (s : St W)
    (r : Res unit) (s' : St W) :
  core fuel bucket repo issue token path s = Some (r, s') ->
  exists evs,
    trace s' = trace s ++ evs
    /\ ((deletes evs = [] /\ closed evs = [] /\ r <> Ok tt)
        \/ exists body,
             In (EvReadFile path (Ok body)) evs
             /\ deletes evs = [(bucket, internal.lock (project body) (version body))]
             /\ ((deleted evs = [] /\ closed evs = [] /\ r <> Ok tt)
                 \/ (deleted evs = deletes evs
                     /\ closed evs = [(repo, issue, token, r)]))).
Proof.
  intros E. apply core_inv in E as (_ & evs & T & Run).
  exists evs. split; [exact T|].
  inversion Run as [e0 evs0 ws Q|body pre e0 Q Hw|body pre r0 Q Hw]; subst.
  - left. rewrite (quiet_deletes _ Q), (quiet_closed _ Q).
    repeat split; auto; discriminate.
  - right. exists body. split; [left; reflexivity|].
    change (EvReadFile path (Ok body) :: pre ++ ?l)
      with ([EvReadFile path (Ok body)] ++ pre ++ l).
    rewrite !deletes_app, !deleted_app, !closed_app,
      (quiet_deletes _ Q), (quiet_deleted _ Q), (quiet_closed _ Q).
    split; [reflexivity|]. left. repeat split; auto; discriminate.
  - right. exists body. split; [left; reflexivity|].
    change (EvReadFile path (Ok body) :: pre ++ ?l)
      with ([EvReadFile path (Ok body)] ++ pre ++ l).
    rewrite !deletes_app, !deleted_app, !closed_app,
      (quiet_deletes _ Q), (quiet_deleted _ Q), (quiet_closed _ Q).
    split; [reflexivity|]. right. split; reflexivity.
Qed.

Lemma bind_assoc {A B C} (m : M W A) (k : A -> M W B) (k' : B -> M W C) s :
  bind (bind m k) k' s = bind m (fun a => bind (k a) k') s.
Proof. unfold bind. destruct (m s) as [[[a|e] s1]|]; reflexivity. Qed.

(** X21. Nothing is done before the lock is checked: in every run that
    reads its parameters, the head request on the lock is the first call
    after the reading, before the clock is read and before any other
    call to the storage or to the tracker. *)
Theorem lock_is_checked_first
    (fuel : nat) (bucket repo issue token path : string) (body : Body)
    (s : St W) (w1 : W) (r : Res unit) (s' : St W) :
  fs_readParams path (world s) = (Ok body, w1) ->
  core fuel bucket repo issue token path s = Some (r, s') ->
  exists rest,
    trace s' = trace s
      ++ EvReadFile path (Ok body)
      :: EvHeadObject bucket (internal.lock (project body) (version body))
           (fst (s3_headObject bucket (internal.lock (project body) (version body)) w1))
      :: rest.
Proof.
  intros Hread E. unfold core in E.
  erewrite bind_ok in E by (apply call_eq; exact Hread).
  erewrite bind_ok in E by reflexivity.
  erewrite bind_ok in E by reflexivity. cbv zeta in E.
  destruct (s3_headObject bucket (internal.lock (project body) (version body)) w1)
    as [h w2] eqn:Hhead. cbn [fst].
  assert (Hlock : lock_check bucket (internal.lock (project body) (version body))
            (mkSt w1 (trace s ++ [EvReadFile path (Ok body)]) [] (exitCode s))
          = Some (match h with Ok _ => Ok tt | Throw _ => Throw lock_error end,
                  mkSt w2
                    (trace s
                       ++ [EvReadFile path (Ok body);
                           EvHeadObject bucket
                             (internal.lock (project body) (version body)) h])
                    [] (exitCode s))).
  { unfold lock_check. destruct h as [[]|e].
    - erewrite try_catch_ok by (apply headObject_eq; exact Hhead).
      cbn. rewrite <- app_assoc. reflexivity.
    - erewrite try_catch_throw by (apply headObject_eq; exact Hhead).
      cbn. rewrite <- app_assoc. reflexivity. }
  assert (Hany : forall A (m : M W A), steps quiet m -> steps (fun _ => True) m).
  { intros A m Hm s0 r0 s0' E0. apply Hm in E0 as (evs & T & _ & Wr & X).
    exists evs. repeat split; auto. apply Forall_forall. auto. }
  unfold prepare in E. rewrite bind_assoc in E.
  destruct h as [[]|e].
  2:{ erewrite bind_throw in E by exact Hlock. injection E as _ <-.
      exists []. reflexivity. }
  erewrite bind_ok in E by exact Hlock.
  match type of E with
  | ?k _ = _ => assert (Hk : steps (fun _ => True) k)
  end.
  { apply steps_bind; [|intros _].
    - apply steps_bind;
        [apply steps_call; intros ?; split; [exact I|reflexivity]|intros index_time].
      apply steps_bind; [apply Hany, steps_version_metadata|intros has_expiry].
      apply steps_bind; [apply Hany, steps_aggregation|intros _].
      apply steps_bind; [apply Hany, steps_save_permissions|intros _].
      apply Hany, steps_update_latest.
    - unfold commit, await_writes, deleteObject, utils.closeIssue.
      repeat first
        [ apply steps_ret | apply steps_await | apply steps_get_writes
        | apply steps_call_await_in; intros ?; split; [exact I|reflexivity]
        | apply steps_bind; [|intros ?] ]. }
  apply Hk in E as (rest & T & _). cbn [trace] in T.
  exists rest. rewrite T, <- app_assoc. reflexivity.
Qed.

(** X22. The response of the comment POST is not inspected: when a step
    fails and the POST returns, whatever its status, the run ends
    normally with exit code 0. *)
Theorem comment_response_is_not_inspected
    (fuel : nat) (penv : ProcessEnv) (argv : list string)
    (token bucket repo issue path : string) (s s1 : St W) (e : Exn)
    (res : Response) (w : W) :
  setup penv argv = Ok (token, (bucket, repo, issue, path)) ->
  core fuel bucket repo issue token path (mkSt (world s) (trace s) (writes s) 1)
    = Some (Throw e, s1) ->
  http_fetch (comment_request repo issue token e) (world s1) = (Ok res, w) ->
  main fuel penv argv s
    = Some (Ok tt,
            mkSt w
              (trace s1 ++ [EvConsoleError e;
                            EvFetch (comment_request repo issue token e) (Ok res)])
              (writes s1) 0).
Proof.
  intros Hsetup Hcore Hc.
  rewrite (main_after_core _ _ _ _ _ _ _ _ _ _ _ Hsetup Hcore), Hc. reflexivity.
Qed.
End Behaviour.

(** * Further scenarios *)

Section FurtherScenarios.
Import Sim Cases.

Lemma setup_failure_stops_before_any_call_witness :
  setup penv_nocreds argv = Throw (Error "missing R2 credentials")
  /\ main 0 penv_nocreds argv (init world1)
     = Some (Throw (Error "missing R2 credentials"), mkSt world1 [] [] 1).
Proof.
  assert (Hsetup : setup penv_nocreds argv = Throw (Error "missing R2 credentials"))
    by reflexivity.
  split; [exact Hsetup|].
  exact (proj1 (setup_failure_stops_before_any_call
                  (Henv:=env) (Hrt:=runtime) (Hpaths:=layout)
                  0 penv_nocreds argv (init world1) _ Hsetup)).
Defined.

Lemma unreadable_parameters_touch_no_storage_witness :
  setup penv argv = Ok cfg
  /\ fs_readParams "params.json" world_badparams = (Throw parse_error, world_badparams)
  /\ exists r s' c,
      main 0 penv argv (init world_badparams) = Some (r, s')
      /\ trace s'
         = [EvReadFile "params.json" (Throw parse_error); EvConsoleError parse_error;
            EvFetch (comment_request "owner/repo" "7" "bot-token" parse_error) c].
Proof.
  assert (Hsetup : setup penv argv = Ok cfg) by reflexivity.
  assert (Hread : fs_readParams "params.json" world_badparams
                  = (Throw parse_error, world_badparams)) by reflexivity.
  split; [exact Hsetup|]. split; [exact Hread|].
  exact (unreadable_parameters_touch_no_storage
           (Henv:=env) (Hrt:=runtime) (Hpaths:=layout) 0 penv argv
           "bot-token" "bucket" "owner/repo" "7" "params.json"
           (init world_badparams) parse_error world_badparams Hsetup Hread).
Defined.

Lemma invalid_timestamp_fails_after_lock_check_witness :
  fs_readParams "params.json" world_notime = (Ok body_notime, world_notime)
  /\ s3_headObject "bucket" "p/v1/..LOCK" world_notime = (Ok tt, world_notime)
  /\ Date_now world_notime = (5000, world_notime)
  /\ Date_toISOString (timestamp body_notime) = None
  /\ core 0 "bucket" "owner/repo" "7" "bot-token" "params.json" (init world_notime)
     = Some (Throw (RangeError "Invalid time value"),
             mkSt world_notime
               [EvReadFile "params.json" (Ok body_notime);
                EvHeadObject "bucket" "p/v1/..LOCK" (Ok tt);
                EvDateNow 5000] [] 0).
Proof.
  assert (Hread : fs_readParams "params.json" world_notime
                  = (Ok body_notime, world_notime)) by reflexivity.
  assert (Hhead : s3_headObject "bucket" "p/v1/..LOCK" world_notime
                  = (Ok tt, world_notime)) by reflexivity.
  assert (Hnow : Date_now world_notime = (5000, world_notime)) by reflexivity.
  assert (Hdate : Date_toISOString (timestamp body_notime) = None) by reflexivity.
  do 4 (split; [assumption|]).
  exact (invalid_timestamp_fails_after_lock_check
           (Henv:=env) (Hrt:=runtime) (Hpaths:=layout) 0
           "bucket" "owner/repo" "7" "bot-token" "params.json" body_notime
           (init world_notime) world_notime world_notime world_notime 5000
           Hread Hhead Hnow Hdate).
Defined.

Lemma version_without_expiry_creates_no_ticket_witness :
  Date_toISOString (timestamp body1) = Some "T1000"
  /\ Date_toISOString (VNum 5000) = Some "T5000"
  /\ s3_getObject "bucket" "p/v1/..expiry.json" world1 = (Missing, world1)
  /\ exists s',
      version_metadata "bucket" "owner/repo" "bot-token" body1 5000 (init world1)
        = Some (Ok false, s')
      /\ trace s'
         = [EvGetObject "bucket" "p/v1/..expiry.json" Missing;
            EvPutObject "bucket" "p/v1/..revision.json"
              (VObj [("upload_time", VStr "T1000"); ("index_time", VStr "T5000")])
              (Ok tt)].
Proof.
  assert (Hup : Date_toISOString (timestamp body1) = Some "T1000") by reflexivity.
  assert (Hidx : Date_toISOString (VNum 5000) = Some "T5000") by reflexivity.
  assert (Hget : s3_getObject "bucket" "p/v1/..expiry.json" world1 = (Missing, world1))
    by reflexivity.
  do 3 (split; [assumption|]).
  eexists. split.
  - eapply (version_without_expiry_creates_no_ticket
              (Henv:=env) (Hrt:=runtime) (Hpaths:=layout)
              "bucket" "owner/repo" "bot-token" body1 5000 "T1000" "T5000"
              (init world1) world1 _ (Ok tt) Hup Hidx Hget).
    reflexivity.
  - reflexivity.
Defined.

Lemma unreadable_ticket_response_leaves_no_metadata_witness :
  s3_getObject "bucket" "p/v1/..expiry.json" world_garbled
    = (Found expiry1, world_garbled)
  /\ http_fetch (expiry_request "owner/repo" "bot-token" body1 (VNum (5000 + 86400000)))
       world_garbled = (Ok garbled, world_garbled)
  /\ 200 <= status garbled <= 299
  /\ ticket_number garbled = Throw parse_error
  /\ exists s',
      version_metadata "bucket" "owner/repo" "bot-token" body1 5000 (init world_garbled)
        = Some (Throw parse_error, s')
      /\ writes s' = [] /\ world s' = world_garbled.
Proof.
  assert (Hup : Date_toISOString (timestamp body1) = Some "T1000") by reflexivity.
  assert (Hidx : Date_toISOString (VNum 5000) = Some "T5000") by reflexivity.
  assert (Hget : s3_getObject "bucket" "p/v1/..expiry.json" world_garbled
                 = (Found expiry1, world_garbled)) by reflexivity.
  assert (Hexp : prop expiry1 "expires_in" = Ok (VNum 86400000)) by reflexivity.
  assert (Hiso : Date_toISOString (VNum (5000 + 86400000)) = Some "T86405000")
    by (vm_compute; reflexivity).
  assert (Hfetch : http_fetch (expiry_request "owner/repo" "bot-token" body1
                                 (VNum (5000 + 86400000))) world_garbled
                   = (Ok garbled, world_garbled)) by (vm_compute; reflexivity).
  assert (Hstatus : 200 <= status garbled <= 299) by (cbn; lia).
  assert (Hnumber : ticket_number garbled = Throw parse_error) by reflexivity.
  do 4 (split; [assumption|]).
  eexists. split.
  - exact (unreadable_ticket_response_leaves_no_metadata
             (Henv:=env) (Hrt:=runtime) (Hpaths:=layout)
             "bucket" "owner/repo" "bot-token" body1 5000 86400000
             "T1000" "T5000" "T86405000" expiry1 garbled parse_error
             (init world_garbled) world_garbled world_garbled
             Hup Hidx Hget Hexp Hiso Hfetch Hstatus Hnumber).
  - split; reflexivity.
Defined.

Lemma malformed_pointer_is_never_overwritten_witness :
  s3_getObject "bucket" "p/..latest.json" world_noclock
    = (Found pointer_noclock, world_noclock)
  /\ loose_null pointer_noclock = false
  /\ prop pointer_noclock "index_time" = Ok VUndefined
  /\ is_number VUndefined = false
  /\ fill_latest "bucket" "p/..latest.json" "v1" 5000 (init world_noclock)
     = Some (Throw latest_error,
             mkSt world_noclock
               [EvGetObject "bucket" "p/..latest.json" (Found pointer_noclock)] [] 0).
Proof.
  assert (Hget : s3_getObject "bucket" "p/..latest.json" world_noclock
                 = (Found pointer_noclock, world_noclock)) by reflexivity.
  assert (Hnn : loose_null pointer_noclock = false) by reflexivity.
  assert (Hprop : prop pointer_noclock "index_time" = Ok VUndefined) by reflexivity.
  assert (Hnum : is_number VUndefined = false) by reflexivity.
  do 4 (split; [assumption|]).
  exact (malformed_pointer_is_never_overwritten (Henv:=env)
           "bucket" "p/..latest.json" "v1" 5000 (init world_noclock)
           pointer_noclock VUndefined world_noclock Hget Hnn Hprop Hnum).
Defined.

Lemma null_pointer_is_overwritten_witness :
  s3_getObject "bucket" "p/..latest.json" world_nullpointer
    = (Found VNull, world_nullpointer)
  /\ exists s',
      fill_latest "bucket" "p/..latest.json" "v1" 5000 (init world_nullpointer)
        = Some (Ok tt, s')
      /\ store (world s') !! "p/..latest.json" = Some (utils.formatLatest "v1" 5000).
Proof.
  assert (Hget : s3_getObject "bucket" "p/..latest.json" world_nullpointer
                 = (Found VNull, world_nullpointer)) by reflexivity.
  split; [exact Hget|].
  eexists. split.
  - eapply (null_pointer_is_overwritten (Henv:=env)
              "bucket" "p/..latest.json" "v1" 5000 (init world_nullpointer)
              world_nullpointer _ (Ok tt) Hget).
    reflexivity.
  - vm_compute. reflexivity.
Defined.

Lemma first_version_sets_both_pointers_witness :
  s3_getObject "bucket" "p/..latest.json" world1 = (Missing, world1)
  /\ exists s',
      update_latest "bucket" body1 false 5000 (init world1) = Some (Ok tt, s')
      /\ puts (trace s')
         = [("bucket", "p/..latest.json", utils.formatLatest "v1" 5000);
            ("bucket", "p/..latest_all.json", utils.formatLatest "v1" 5000)].
Proof.
  assert (Hget : s3_getObject "bucket" "p/..latest.json" world1 = (Missing, world1))
    by reflexivity.
  split; [exact Hget|].
  eexists. split.
  - eapply (first_version_sets_both_pointers (Henv:=env) (Hpaths:=layout)
              "bucket" body1 false 5000 (init world1) world1 _ _ _ (Ok tt) (Ok tt) Hget);
      reflexivity.
  - reflexivity.
Defined.

Lemma recorded_pointer_is_not_displaced_by_older_witness :
  s3_getObject "bucket" "p/..latest.json" world1 = (Missing, world1)
  /\ pointer_state Missing = Some Absent
  /\ (forall t, Absent = Clock t -> t < 5000)
  /\ 4000 <= 5000
  /\ exists s',
      (fill_latest "bucket" "p/..latest.json" "v1" 5000 ;;;
       fill_latest "bucket" "p/..latest.json" "v0" 4000) (init world1)
        = Some (Ok tt, s')
      /\ puts (trace s') = [("bucket", "p/..latest.json", utils.formatLatest "v1" 5000)]
      /\ store (world s') !! "p/..latest.json" = Some (utils.formatLatest "v1" 5000).
Proof.
  assert (Hget : s3_getObject "bucket" "p/..latest.json" world1 = (Missing, world1))
    by reflexivity.
  assert (Hst : pointer_state Missing = Some Absent) by reflexivity.
  assert (Hnewer : forall t, Absent = Clock t -> t < 5000) by discriminate.
  assert (Hle : 4000 <= 5000) by discriminate.
  do 4 (split; [assumption|]).
  eexists. split.
  - eapply (recorded_pointer_is_not_displaced_by_older (Henv:=env)
              "bucket" "p/..latest.json" "v1" "v0" 5000 4000 (init world1)
              Missing Absent world1 _ _ (Ok tt) Hget Hst Hnewer);
      [reflexivity|vm_compute; reflexivity|exact Hle].
  - split; vm_compute; reflexivity.
Defined.

Lemma placeholder_yields_to_real_version_witness :
  s3_getObject "bucket" "p/..latest.json" world_placeholder
    = (Found placeholder, world_placeholder)
  /\ 0 <= 5000
  /\ exists s',
      fill_persistent "bucket" body1 false 5000 (init world_placeholder)
        = Some (Ok tt, s')
      /\ store (world s') !! "p/..latest.json" = Some (utils.formatLatest "v1" 5000).
Proof.
  assert (Hget : s3_getObject "bucket" "p/..latest.json" world_placeholder
                 = (Found placeholder, world_placeholder)) by reflexivity.
  assert (Hclock : 0 <= 5000) by discriminate.
  do 2 (split; [assumption|]).
  eexists. split.
  - eapply (placeholder_yields_to_real_version (Henv:=env) (Hpaths:=layout)
              "bucket" body1 5000 (init world_placeholder) world_placeholder _ (Ok tt)
              Hget Hclock).
    reflexivity.
  - vm_compute. reflexivity.
Defined.

Lemma permissions_check_failure_is_rethrown_witness :
  truthy (overwrite_permissions body1) = false
  /\ s3_headObject (Env:=env_denied) "bucket" "p/..permissions.json" world1
     = (Throw denied, world1)
  /\ status_is denied 404 = false
  /\ save_permissions (Henv:=env_denied) "bucket" body1 (init world1)
     = Some (Throw denied,
             mkSt world1 [EvHeadObject "bucket" "p/..permissions.json" (Throw denied)]
               [] 0).
Proof.
  assert (Hflag : truthy (overwrite_permissions body1) = false) by reflexivity.
  assert (Hhead : s3_headObject (Env:=env_denied) "bucket" "p/..permissions.json" world1
                  = (Throw denied, world1)) by reflexivity.
  assert (Hstatus : status_is denied 404 = false) by reflexivity.
  do 3 (split; [assumption|]).
  exact (permissions_check_failure_is_rethrown (Henv:=env_denied) (Hpaths:=layout)
           "bucket" body1 (init world1) denied world1 Hflag Hhead Hstatus).
Defined.

Lemma overwrite_flag_skips_the_check_witness :
  truthy (overwrite_permissions body_overwrite) = true
  /\ exists s',
      save_permissions "bucket" body_overwrite (init world1) = Some (Ok tt, s')
      /\ trace s'
         = [EvPutObject "bucket" "p/..permissions.json" (permissions body_overwrite)
              (Ok tt)].
Proof.
  assert (Hflag : truthy (overwrite_permissions body_overwrite) = true) by reflexivity.
  split; [exact Hflag|].
  eexists. split.
  - eapply (overwrite_flag_skips_the_check (Henv:=env) (Hpaths:=layout)
              "bucket" body_overwrite (init world1) _ (Ok tt) Hflag).
    reflexivity.
  - reflexivity.
Defined.

Lemma listing_without_json_writes_empty_blob_witness :
  s3_listObjectsV2 "bucket" "p/v1/" None world_nojson = (Ok page_nojson, world_nojson)
  /\ IsTruncated page_nojson = false
  /\ List.filter is_json (Contents page_nojson) = []
  /\ exists s',
      aggregation 1 "bucket" body1 (init world_nojson) = Some (Ok tt, s')
      /\ puts (trace s') = [("bucket", "p/v1/..aggregated.json", VArr [])].
Proof.
  assert (Hlist : s3_listObjectsV2 "bucket" "p/v1/" None world_nojson
                  = (Ok page_nojson, world_nojson)) by reflexivity.
  assert (Htrunc : IsTruncated page_nojson = false) by reflexivity.
  assert (Hjson : List.filter is_json (Contents page_nojson) = []) by reflexivity.
  do 3 (split; [assumption|]).
  eexists. split.
  - eapply (listing_without_json_writes_empty_blob (Henv:=env) (Hpaths:=layout)
              0 "bucket" body1 page_nojson (init world_nojson) world_nojson _ (Ok tt)
              Hlist Htrunc Hjson).
    reflexivity.
  - reflexivity.
Defined.

Lemma failed_aggregation_writes_nothing_witness :
  exists e s',
    aggregation 3 "bucket" body1 (init world_nolisting) = Some (Throw e, s')
    /\ exists evs,
        trace s' = evs /\ Forall reading evs /\ puts evs = [] /\ writes s' = [].
Proof.
  eassert (E : aggregation 3 "bucket" body1 (init world_nolisting) = Some (Throw _, _))
    by (vm_compute; reflexivity).
  eexists _, _. split; [exact E|].
  exact (failed_aggregation_writes_nothing (Henv:=env) (Hpaths:=layout)
           3 "bucket" body1 (init world_nolisting) _ _ E).
Defined.

Lemma truncated_listing_never_ends_witness :
  (forall token w, True ->
     exists info w',
       s3_listObjectsV2 (Env:=env_endless) "bucket" "p/v1/" token w = (Ok info, w')
       /\ IsTruncated info = true /\ True)
  /\ aggregation (Henv:=env_endless) 1000 "bucket" body1 (init world1) = None.
Proof.
  assert (Hnext : forall token (w : World), True ->
            exists info w',
              s3_listObjectsV2 (Env:=env_endless) "bucket" "p/v1/" token w = (Ok info, w')
              /\ IsTruncated info = true /\ True).
  { intros token w _. exists page_truncated, w. auto. }
  split; [exact Hnext|].
  exact (truncated_listing_never_ends (Henv:=env_endless) (Hpaths:=layout)
           "bucket" body1 (fun _ => True) I Hnext 1000 (init world1)).
Defined.

Lemma rejected_write_keeps_lock_and_ticket_witness :
  In (Throw rejected2) (writes state_rejected)
  /\ exists e,
      commit "bucket" "owner/repo" "7" "bot-token" "p/v1/..LOCK" state_rejected
        = Some (Throw e, state_rejected)
      /\ In (Throw e) (writes state_rejected).
Proof.
  assert (Hin : In (Throw rejected2) (writes state_rejected))
    by (cbn; tauto).
  split; [exact Hin|].
  exact (rejected_write_keeps_lock_and_ticket (Henv:=env)
           "bucket" "owner/repo" "7" "bot-token" "p/v1/..LOCK" state_rejected
           rejected2 Hin).
Defined.

Lemma lock_is_checked_first_witness :
  fs_readParams "params.json" world1 = (Ok body1, world1)
  /\ exists s',
      core 5 "bucket" "owner/repo" "7" "bot-token" "params.json" (init world1)
        = Some (Ok tt, s')
      /\ exists rest,
          trace s'
          = EvReadFile "params.json" (Ok body1)
            :: EvHeadObject "bucket" "p/v1/..LOCK" (Ok tt) :: rest.
Proof.
  assert (Hread : fs_readParams "params.json" world1 = (Ok body1, world1))
    by reflexivity.
  split; [exact Hread|].
  eassert (E : core 5 "bucket" "owner/repo" "7" "bot-token" "params.json" (init world1)
               = Some (Ok tt, _)) by (vm_compute; reflexivity).
  eexists. split; [exact E|].
  exact (lock_is_checked_first (Henv:=env) (Hrt:=runtime) (Hpaths:=layout)
           5 "bucket" "owner/repo" "7" "bot-token" "params.json" body1
           (init world1) world1 _ _ Hread E).
Defined.

Lemma run_touches_only_its_own_objects_witness :
  exists s',
    core 5 "bucket" "owner/repo" "7" "bot-token" "params.json" (init world1)
      = Some (Ok tt, s')
    /\ exists evs,
        trace s' = evs
        /\ ((exists e, evs = [EvReadFile "params.json" (Throw e)])
            \/ exists body rest,
                 evs = EvReadFile "params.json" (Ok body) :: rest
                 /\ Forall (confined "bucket" "owner/repo" "7" "bot-token" body) rest).
Proof.
  eassert (E : core 5 "bucket" "owner/repo" "7" "bot-token" "params.json" (init world1)
               = Some (Ok tt, _)) by (vm_compute; reflexivity).
  eexists. split; [exact E|].
  exact (run_touches_only_its_own_objects (Henv:=env) (Hrt:=runtime) (Hpaths:=layout)
           5 "bucket" "owner/repo" "7" "bot-token" "params.json" (init world1) _ _ E).
Defined.

Lemma ticket_is_closed_only_after_unlock_witness :
  exists s',
    core 5 "bucket" "owner/repo" "7" "bot-token" "params.json" (init world_close_fails)
      = Some (Throw close_failed, s')
    /\ deletes (trace s') = [("bucket", "p/v1/..LOCK")]
    /\ closed (trace s') = [("owner/repo", "7", "bot-token", Throw close_failed)].
Proof.
  eassert (E : core 5 "bucket" "owner/repo" "7" "bot-token" "params.json"
                 (init world_close_fails) = Some (Throw close_failed, _))
    by (vm_compute; reflexivity).
  eexists. split; [exact E|].
  destruct (ticket_is_closed_only_after_unlock
              (Henv:=env) (Hrt:=runtime) (Hpaths:=layout)
              5 "bucket" "owner/repo" "7" "bot-token" "params.json"
              (init world_close_fails) _ _ E) as (evs & T & _).
  split; reflexivity.
Defined.

Lemma comment_response_is_not_inspected_witness :
  setup penv argv = Ok cfg
  /\ ok refused = false
  /\ exists s1,
      core 0 "bucket" "owner/repo" "7" "bot-token" "params.json"
        (mkSt world_refused [] [] 1) = Some (Throw lock_error, s1)
      /\ http_fetch (comment_request "owner/repo" "7" "bot-token" lock_error) (world s1)
         = (Ok refused, world_refused)
      /\ exists s',
          main 0 penv argv (init world_refused) = Some (Ok tt, s')
          /\ exitCode s' = 0.
Proof.
  assert (Hsetup : setup penv argv = Ok cfg) by reflexivity.
  split; [exact Hsetup|]. split; [reflexivity|].
  eassert (Hcore : core 0 "bucket" "owner/repo" "7" "bot-token" "params.json"
                     (mkSt world_refused [] [] 1) = Some (Throw lock_error, _))
    by (vm_compute; reflexivity).
  eexists. split; [exact Hcore|].
  assert (Hc : http_fetch (comment_request "owner/repo" "7" "bot-token" lock_error)
                 world_refused = (Ok refused, world_refused))
    by (vm_compute; reflexivity).
  split; [exact Hc|].
  eexists. split.
  - exact (comment_response_is_not_inspected
             (Henv:=env) (Hrt:=runtime) (Hpaths:=layout) 0 penv argv
             "bot-token" "bucket" "owner/repo" "7" "params.json"
             (init world_refused) _ lock_error refused world_refused Hsetup Hcore Hc).
  - reflexivity.
Defined.
End FurtherScenarios.
